(** * The offline-caching service worker of the finance dashboard (sw.js)

    A shallow embedding of [sw.js].  The worker's own functions are
    translated one by one; the browser objects they call ([caches],
    [Cache], [fetch], [clients]) are modelled as follows.

    - A [Response] is a snapshot (status, status text, body); [ok] is the
      platform's [200 <= status <= 299].
    - A [Cache] is a finite map from request URL to response snapshot; the
      [CacheStorage] is the list of named caches in creation order, which is
      the order [caches.keys()] reports and [caches.match] searches.
      Request matching is by the URL without its fragment, for GET requests
      (no [Vary] headers are modelled); a request of another method matches
      nothing and cannot be stored, and a partial response (status 206) is
      refused by [cache.put] and [cache.addAll].
    - The network is an oracle from URL to [option Response]: [None] is a
      network error, which makes [fetch] reject.
    - An [async] function is run to the point where all the work it started
      has settled: its result records how the returned promise settles,
      whether that needed the network, which fetches were issued, and the
      storage left behind.  Console output is not modelled. *)

From Stdlib Require Import Ascii.
From stdpp Require Import gmap strings list fin_maps.

Open Scope string_scope.

(** ** Constants (sw.js, lines 4-24) *)

Definition CACHE_NAME : string := "finance-dashboard-v3.0.0".
Definition STATIC_CACHE_NAME : string := "finance-static-v3.0.0".
Definition DYNAMIC_CACHE_NAME : string := "finance-dynamic-v3.0.0".

Definition STATIC_FILES : list string :=
  [ "/";
    "/index.html";
    "/manifest.json";
    "https://cdnjs.cloudflare.com/ajax/libs/pdf.js/3.11.174/pdf.min.js";
    "https://cdnjs.cloudflare.com/ajax/libs/Chart.js/4.4.0/chart.umd.js";
    "https://cdnjs.cloudflare.com/ajax/libs/PapaParse/5.4.1/papaparse.min.js";
    "https://cdnjs.cloudflare.com/ajax/libs/d3/7.8.5/d3.min.js";
    "https://cdnjs.cloudflare.com/ajax/libs/fuse.js/6.6.2/fuse.min.js";
    "https://cdn.jsdelivr.net/npm/@tensorflow/tfjs@4.10.0/dist/tf.min.js";
    "https://unpkg.com/tesseract.js@4.0.2/dist/tesseract.min.js";
    "https://cdn.jsdelivr.net/npm/d3-sankey@0.12.3/dist/d3-sankey.min.js";
    "https://cdnjs.cloudflare.com/ajax/libs/jspdf/2.5.1/jspdf.umd.min.js";
    "https://cdnjs.cloudflare.com/ajax/libs/html2canvas/1.4.1/html2canvas.min.js" ].

(** ** JavaScript strings and arrays *)

(** [s.startsWith(p)] *)
Definition startsWith (s p : string) : bool := String.prefix p s.

(** [s.includes(sub)] *)
Fixpoint includes (s sub : string) : bool :=
  String.prefix sub s ||
  match s with
  | EmptyString => false
  | String _ s' => includes s' sub
  end.

(** [a.slice(i, j)] and [a.slice(i)] for [0 <= i <= j] *)
Definition slice {A} (i j : nat) (a : list A) : list A := firstn (j - i) (skipn i a).
Definition slice_from {A} (i : nat) (a : list A) : list A := skipn i a.

(** ** Responses, URLs and requests *)

Record Response := mkResponse {
  status : Z;
  statusText : string;
  body : string
}.

Definition ok (r : Response) : bool :=
  ((200 <=? status r) && (status r <=? 299))%Z.

(** [Cache.put] and [Cache.addAll] refuse a partial response. *)
Definition partial_content (r : Response) : bool := (status r =? 206)%Z.

(** The [URL] object: [protocol] ends with its colon, as in JavaScript;
    [port] is empty for the scheme's default port; [pathname] stands for the
    path with any query and fragment. *)
Record URL := mkURL {
  protocol : string;
  hostname : string;
  port : string;
  pathname : string
}.

Definition host (u : URL) : string :=
  hostname u ++ (if String.eqb (port u) "" then "" else ":" ++ port u).

(** The schemes whose URLs have an origin of their own; the origin of any
    other URL is serialised as [null]. *)
Definition tuple_origin_scheme (p : string) : bool :=
  existsb (String.eqb p) ["http:"; "https:"; "ftp:"; "ws:"; "wss:"].

Definition origin (u : URL) : string :=
  if tuple_origin_scheme (protocol u) then protocol u ++ "//" ++ host u else "null".

Definition href (u : URL) : string := protocol u ++ "//" ++ host u ++ pathname u.

(** A URL string up to its fragment. *)
Fixpoint strip_fragment (s : string) : string :=
  match s with
  | EmptyString => EmptyString
  | String c rest => if Ascii.eqb c "#"%char then EmptyString else String c (strip_fragment rest)
  end.

(** A [Request] keeps its URL in parsed form: [request.url] is its
    serialisation and [new URL(request.url)] gives the parsed form back. *)
Record Request := mkRequest {
  method : string;
  target : URL;
  destination : string
}.

Definition url (r : Request) : string := href (target r).

(** The URL by which the Cache API files and finds a request: [request.url]
    without its fragment. *)
Definition cache_url (r : Request) : string :=
  protocol (target r) ++ "//" ++ host (target r) ++ strip_fragment (pathname (target r)).

(** What the spec calls an http(s)-scheme request. *)
Definition http_scheme (r : Request) : Prop :=
  protocol (target r) = "http:" ∨ protocol (target r) = "https:".

(** The requests a browser hands to a fetch handler are those of scheme
    http or https and, in some browsers, those of a scheme of the browser's
    own ([chrome-extension:] and the like); no scheme that browsers know,
    other than these two, begins with the letters [http]. *)
Definition dispatched (r : Request) : Prop :=
  http_scheme r ∨ startsWith (protocol (target r)) "http" = false.

(** ** The cache storage *)

Definition CacheStorage : Type := list (string * gmap string Response).

(** The cache registered under [name], if any. *)
Fixpoint caches_find (name : string) (cs : CacheStorage) : option (gmap string Response) :=
  match cs with
  | [] => None
  | (n, c) :: rest => if String.eqb n name then Some c else caches_find name rest
  end.

(** [caches.keys()] *)
Definition caches_keys (cs : CacheStorage) : list string := map fst cs.

(** [caches.open(name)]: creates an empty cache when there is none. *)
Definition caches_open (name : string) (cs : CacheStorage) : CacheStorage :=
  match caches_find name cs with
  | Some _ => cs
  | None => (cs ++ [(name, ∅)])%list
  end.

(** [caches.delete(name)] *)
Definition caches_delete (name : string) (cs : CacheStorage) : CacheStorage :=
  List.filter (λ p, negb (String.eqb (fst p) name)) cs.

(** [caches.match(key)]: the first cache, in creation order, that holds the
    key answers. *)
Fixpoint caches_match (key : string) (cs : CacheStorage) : option Response :=
  match cs with
  | [] => None
  | (_, c) :: rest =>
      match c !! key with
      | Some resp => Some resp
      | None => caches_match key rest
      end
  end.

(** [cache.match(key)] on the cache called [name]. *)
Definition cache_match (name key : string) (cs : CacheStorage) : option Response :=
  c ← caches_find name cs; c !! key.

(** [cache.put(key, resp)] on the cache called [name]: a whole-value
    replacement of the entry. *)
Fixpoint cache_put (name key : string) (resp : Response) (cs : CacheStorage) : CacheStorage :=
  match cs with
  | [] => []
  | (n, c) :: rest =>
      if String.eqb n name then (n, <[key := resp]> c) :: rest
      else (n, c) :: cache_put name key resp rest
  end.

(** The key under which a request is matched and stored: its URL without
    the fragment, for a GET request; the Cache API matches nothing for other
    methods and refuses to store them. *)
Definition request_key (r : Request) : option string :=
  if String.eqb (method r) "GET" then Some (cache_url r) else None.

(** [caches.match(request)] *)
Definition caches_match_request (r : Request) (cs : CacheStorage) : option Response :=
  key ← request_key r; caches_match key cs.

(** [cache.match(request)] on the cache called [name]. *)
Definition cache_match_request (name : string) (r : Request) (cs : CacheStorage) : option Response :=
  key ← request_key r; cache_match name key cs.

(** [cache.put(request, resp)] on the cache called [name], not awaited: for
    a request that cannot be stored, and for a partial response, the returned
    promise rejects unobserved and the storage stays as it was. *)
Definition cache_put_request (name : string) (r : Request) (resp : Response)
    (cs : CacheStorage) : CacheStorage :=
  match request_key r with
  | Some key => if partial_content resp then cs else cache_put name key resp cs
  | None => cs
  end.

(** The number of entries of every cache together. *)
Definition total_entries (cs : CacheStorage) : nat :=
  foldr (λ p acc, size (snd p) + acc) 0 cs.

(** ** Promises and strategy outcomes *)

(** How a promise settles: fulfilled with a value, or rejected with an error,
    of which the message is kept. *)
Inductive Promise (A : Type) :=
  | Fulfilled (v : A)
  | Rejected (message : string).
Arguments Fulfilled {A} v.
Arguments Rejected {A} message.

(** What a strategy hands to [respondWith]: a promise of a response or of
    [undefined] ([None]). *)
Definition Settled : Type := Promise (option Response).

(** Whether the value handed to [respondWith] was available before the
    network answered. *)
Inductive Timing := Immediately | AfterNetwork.

Record Outcome := mkOutcome {
  answer : Settled;
  timing : Timing;
  fetched : list string;
  store : CacheStorage
}.

(** [new Response('Offline - Content not available',
                  {status: 503, statusText: 'Service Unavailable'})] *)
Definition offline_response : Response :=
  {| status := 503; statusText := "Service Unavailable";
     body := "Offline - Content not available" |}.

Section Worker.

(** [self.location.origin] and the network. *)
Variable self_origin : string.
Variable network : string → option Response.

(** The URL strings the worker gives to [fetch], [cache.addAll] and
    [caches.match] are absolute paths and full URLs (the entries of
    [STATIC_FILES] and [/index.html]): an absolute path is taken at the
    worker's origin, wherever below it the worker's script is, and a full
    URL is itself. *)
Definition absolute (s : string) : string :=
  if startsWith s "/" then self_origin ++ s else s.

(** ** The three strategies (sw.js, lines 119-210) *)

Definition cacheFirstStrategy (request : Request) (cs : CacheStorage) : Outcome :=
  match caches_match_request request cs with
  | Some cachedResponse =>
      {| answer := Fulfilled (Some cachedResponse); timing := Immediately;
         fetched := []; store := cs |}
  | None =>
      match network (url request) with
      | Some networkResponse =>
          {| answer := Fulfilled (Some networkResponse); timing := AfterNetwork;
             fetched := [url request];
             store := if ok networkResponse
                      then cache_put_request STATIC_CACHE_NAME request networkResponse
                             (caches_open STATIC_CACHE_NAME cs)
                      else cs |}
      | None =>
          {| answer := if String.eqb (destination request) "document"
                       then Fulfilled (caches_match (absolute "/index.html") cs)
                       else Fulfilled (Some offline_response);
             timing := AfterNetwork;
             fetched := [url request];
             store := cs |}
      end
  end.

Definition networkFirstStrategy (request : Request) (cs : CacheStorage) : Outcome :=
  match network (url request) with
  | Some networkResponse =>
      {| answer := Fulfilled (Some networkResponse); timing := AfterNetwork;
         fetched := [url request];
         store := if ok networkResponse
                  then cache_put_request DYNAMIC_CACHE_NAME request networkResponse
                         (caches_open DYNAMIC_CACHE_NAME cs)
                  else cs |}
  | None =>
      {| answer := match caches_match_request request cs with
                   | Some cachedResponse => Fulfilled (Some cachedResponse)
                   | None => Fulfilled (Some offline_response)
                   end;
         timing := AfterNetwork;
         fetched := [url request];
         store := cs |}
  end.

Definition staleWhileRevalidateStrategy (request : Request) (cs : CacheStorage) : Outcome :=
  let cache := caches_open DYNAMIC_CACHE_NAME cs in
  let cachedResponse := cache_match_request DYNAMIC_CACHE_NAME request cache in
  let fetchPromise : Settled * CacheStorage :=
    match network (url request) with
    | Some networkResponse =>
        (Fulfilled (Some networkResponse),
         if ok networkResponse
         then cache_put_request DYNAMIC_CACHE_NAME request networkResponse cache
         else cache)
    | None => (Fulfilled cachedResponse, cache)
    end in
  match cachedResponse with
  | Some stale =>
      {| answer := Fulfilled (Some stale); timing := Immediately;
         fetched := [url request]; store := snd fetchPromise |}
  | None =>
      {| answer := fst fetchPromise; timing := AfterNetwork;
         fetched := [url request]; store := snd fetchPromise |}
  end.

(** [isCDNResource(url)] *)
Definition cdnHosts : list string :=
  [ "cdnjs.cloudflare.com"; "cdn.jsdelivr.net"; "unpkg.com";
    "fonts.googleapis.com"; "fonts.gstatic.com" ].

Definition isCDNResource (u : URL) : bool :=
  existsb (λ h, includes (hostname u) h) cdnHosts.

(** ** The fetch handler (sw.js, lines 92-117) *)

(** What a fetch event leaves behind: the promise given to
    [event.respondWith], if it was called, the fetches issued and the
    storage.  Without [respondWith] the platform handles the request
    itself. *)
Record Handled := mkHandled {
  respondWith : option (Settled * Timing);
  network_calls : list string;
  caches_after : CacheStorage
}.

Definition respond (o : Outcome) : Handled :=
  {| respondWith := Some (answer o, timing o);
     network_calls := fetched o;
     caches_after := store o |}.

Definition pass_through (cs : CacheStorage) : Handled :=
  {| respondWith := None; network_calls := []; caches_after := cs |}.

Definition fetch_handler (request : Request) (cs : CacheStorage) : Handled :=
  let u := target request in
  if negb (String.eqb (method request) "GET") then pass_through cs
  else if negb (startsWith (url request) "http") then pass_through cs
  else if String.eqb (origin u) self_origin then respond (cacheFirstStrategy request cs)
  else if isCDNResource u then respond (staleWhileRevalidateStrategy request cs)
  else respond (networkFirstStrategy request cs).

(** ** Install (sw.js, lines 27-60) *)

(** [cache.addAll(urls)] on the cache called [name]: every URL is fetched;
    unless every fetch answers with an [ok] response that is not partial the
    promise rejects and nothing is stored. *)
Definition cache_addAll (name : string) (urls : list string) (cs : CacheStorage)
    : Promise unit * CacheStorage :=
  match mapM (λ u, response ← network (absolute u);
                   if ok response && negb (partial_content response)
                   then Some (absolute u, response) else None) urls with
  | Some entries =>
      (Fulfilled (), foldl (λ s e, cache_put name (fst e) (snd e) s) cs entries)
  | None => (Rejected "Request failed", cs)
  end.

(** One element of the [Promise.allSettled] array: [fetch(url)], then
    [cache.put] for an [ok] response; anything else, the rejection of
    [cache.put] for a partial response included, is caught. *)
Definition cache_cdn_resource (cs : CacheStorage) (u : string) : CacheStorage :=
  match network (absolute u) with
  | Some response =>
      if ok response then
        if partial_content response then cs
        else cache_put DYNAMIC_CACHE_NAME (absolute u) response cs
      else cs
  | None => cs
  end.

(** What an install event leaves behind: how the promise given to
    [event.waitUntil] settles, whether [self.skipWaiting()] was called, and
    the storage. *)
Record Installed := mkInstalled {
  installation : Promise unit;
  skipWaiting_called : bool;
  installed_store : CacheStorage
}.

Definition install (cs : CacheStorage) : Installed :=
  let cs1 := caches_open STATIC_CACHE_NAME cs in
  let cs2 := caches_open DYNAMIC_CACHE_NAME cs1 in
  let basic := cache_addAll STATIC_CACHE_NAME (slice 0 3 STATIC_FILES) cs2 in
  let cs3 := foldl cache_cdn_resource (snd basic) (slice_from 3 STATIC_FILES) in
  match fst basic with
  | Fulfilled _ =>
      {| installation := Fulfilled (); skipWaiting_called := true; installed_store := cs3 |}
  | Rejected e =>
      {| installation := Rejected e; skipWaiting_called := false; installed_store := cs3 |}
  end.

End Worker.

(** ** Activate (sw.js, lines 63-89) *)

(** The filter of the activate handler. *)
Definition old_cache (cacheName : string) : bool :=
  startsWith cacheName "finance-" &&
  negb (String.eqb cacheName STATIC_CACHE_NAME) &&
  negb (String.eqb cacheName DYNAMIC_CACHE_NAME).

(** What an activate event leaves behind: the names given to
    [caches.delete], the storage, and whether the clients were claimed. *)
Record Activated := mkActivated {
  deleted : list string;
  activated_store : CacheStorage;
  clients_claimed : bool
}.

Definition activate (cs : CacheStorage) : Activated :=
  let doomed := List.filter old_cache (caches_keys cs) in
  {| deleted := doomed;
     activated_store := foldl (λ s cacheName, caches_delete cacheName s) cs doomed;
     clients_claimed := true |}.

(** ** Messages *)

(** The [data] of a message sent by the worker. *)
Inductive Payload :=
  | CountData (count : nat)
  | StatusData (caches size : nat) (lastUpdated : string)
  | ErrorData (error : string).

(** The envelope [{type, data}]. *)
Record ClientMessage := mkClientMessage {
  type : string;
  data : Payload
}.

(** ** Background sync (sw.js, lines 226-273) *)

(** A pending transaction; the worker reads its [id] only. *)
Record Transaction := mkTransaction {
  transaction_id : string
}.

(** The [for ... of] loop: the records handed to the processor, in order,
    up to the first failure, and how the loop ends. *)
Fixpoint process_each (process : Transaction → Promise unit) (pending : list Transaction)
    : list Transaction * Promise unit :=
  match pending with
  | [] => ([], Fulfilled ())
  | transaction :: rest =>
      match process transaction with
      | Fulfilled _ =>
          let r := process_each process rest in (transaction :: fst r, snd r)
      | Rejected e => ([transaction], Rejected e)
      end
  end.

(** What a sync run leaves behind: the records handed to the processor, the
    error caught by the [catch], if any, and the messages posted, each with
    the client it went to. *)
Record Synced := mkSynced {
  processed : list Transaction;
  sync_error : option string;
  posted : list (string * ClientMessage)
}.

(** The body of [syncTransactions], over the two collaborators it calls and
    the clients [self.clients.matchAll()] reports. *)
Definition syncTransactions_with
    (getPending : Promise (list Transaction))
    (process : Transaction → Promise unit)
    (clients : list string) : Synced :=
  match getPending with
  | Rejected e => {| processed := []; sync_error := Some e; posted := [] |}
  | Fulfilled pendingTransactions =>
      if (0 <? length pendingTransactions)%nat then
        let run := process_each process pendingTransactions in
        match snd run with
        | Fulfilled _ =>
            {| processed := fst run; sync_error := None;
               posted := map (λ client,
                                (client,
                                 {| type := "SYNC_COMPLETE";
                                    data := CountData (length pendingTransactions) |}))
                             clients |}
        | Rejected e => {| processed := fst run; sync_error := Some e; posted := [] |}
        end
      else {| processed := []; sync_error := None; posted := [] |}
  end.

(** The two placeholders of the source. *)
Definition getPendingTransactions : Promise (list Transaction) := Fulfilled [].
Definition processTransaction (transaction : Transaction) : Promise unit := Fulfilled ().

Definition syncTransactions (clients : list string) : Synced :=
  syncTransactions_with getPendingTransactions processTransaction clients.

(** The sync handler: only the tag [background-sync-transactions] starts a
    run. *)
Definition sync_handler (tag : string) (clients : list string) : option Synced :=
  if String.eqb tag "background-sync-transactions" then Some (syncTransactions clients)
  else None.

(** ** The message handler (sw.js, lines 350-410) *)

(** [getCacheStatus] is the one function whose contract covers a failure of
    the storage itself, so the storage it and the message handler run on
    says which of its operations reject, and with which message. *)
Inductive StorageOp :=
  | OpKeys
  | OpOpen (name : string)
  | OpCacheKeys (name : string).

Record Storage := mkStorage {
  contents : CacheStorage;
  fault : StorageOp → option string
}.

(** A storage on which every operation succeeds. *)
Definition healthy (cs : CacheStorage) : Storage :=
  {| contents := cs; fault := λ _, None |}.

(** [cache.keys()] on the cache called [name]. *)
Definition cache_keys (name : string) (cs : CacheStorage) : list string :=
  match caches_find name cs with
  | Some c => map fst (map_to_list c)
  | None => []
  end.

(** The [for ... of] loop of [getCacheStatus]: [size] is [status.size]. *)
Fixpoint count_entries (fails : StorageOp → option string) (cacheNames : list string)
    (size : nat) (cs : CacheStorage) : Promise nat * CacheStorage :=
  match cacheNames with
  | [] => (Fulfilled size, cs)
  | cacheName :: rest =>
      match fails (OpOpen cacheName) with
      | Some e => (Rejected e, cs)
      | None =>
          let cs' := caches_open cacheName cs in
          match fails (OpCacheKeys cacheName) with
          | Some e => (Rejected e, cs')
          | None =>
              count_entries fails rest (size + length (cache_keys cacheName cs')) cs'
          end
      end
  end.

(** [getCacheStatus()], at the time whose ISO form is [now]: the object the
    returned promise is fulfilled with, and the storage. *)
Definition getCacheStatus (now : string) (st : Storage) : Payload * CacheStorage :=
  match fault st OpKeys with
  | Some e => (ErrorData e, contents st)
  | None =>
      let cacheNames := caches_keys (contents st) in
      let counted := count_entries (fault st) cacheNames 0 (contents st) in
      match fst counted with
      | Fulfilled size => (StatusData (length cacheNames) size now, snd counted)
      | Rejected e => (ErrorData e, snd counted)
      end
  end.

(** The [data] of a [CACHE_TRANSACTION] command: the transaction's [id] and
    its [JSON.stringify] text. *)
Record TransactionData := mkTransactionData {
  data_id : string;
  data_json : string
}.

(** [new Response(text)] *)
Definition plain_response (text : string) : Response :=
  {| status := 200; statusText := ""; body := text |}.

(** [cacheTransaction(transaction)]; [None] is a command without data, on
    which reading [transaction.id] throws into the [catch].  The key is a
    URL string made from the id, which the platform parses against the URL
    of the worker's script: [resolve s] is the URL, without fragment, under
    which the Cache API files the string [s], and [None] when [s] does not
    parse to an http(s) URL, on which [cache.put] rejects. *)
Definition cacheTransaction (resolve : string → option string)
    (transaction : option TransactionData) (st : Storage) : CacheStorage :=
  match fault st (OpOpen DYNAMIC_CACHE_NAME) with
  | Some _ => contents st
  | None =>
      let cs := caches_open DYNAMIC_CACHE_NAME (contents st) in
      match transaction with
      | Some t =>
          match resolve ("transaction-" ++ data_id t) with
          | Some key => cache_put DYNAMIC_CACHE_NAME key (plain_response (data_json t)) cs
          | None => cs
          end
      | None => cs
      end
  end.

Record MessageEvent := mkMessageEvent {
  message_type : string;
  message_data : option TransactionData;
  ports : list string
}.

(** What a message event leaves behind: whether [self.skipWaiting()] was
    called, the messages posted with the port each went to, the error of a
    promise that rejected with no handler, if any, and the storage. *)
Record Messaged := mkMessaged {
  skipWaiting_requested : bool;
  replies : list (string * ClientMessage);
  unhandled_rejection : option string;
  message_store : CacheStorage
}.

Definition message_handler (resolve : string → option string) (now : string)
    (event : MessageEvent) (st : Storage) : Messaged :=
  if String.eqb (message_type event) "SKIP_WAITING" then
    {| skipWaiting_requested := true; replies := []; unhandled_rejection := None;
       message_store := contents st |}
  else if String.eqb (message_type event) "CACHE_TRANSACTION" then
    {| skipWaiting_requested := false; replies := []; unhandled_rejection := None;
       message_store := cacheTransaction resolve (message_data event) st |}
  else if String.eqb (message_type event) "GET_CACHE_STATUS" then
    let status := getCacheStatus now st in
    match ports event with
    | port0 :: _ =>
        {| skipWaiting_requested := false;
           replies := [(port0, {| type := "CACHE_STATUS"; data := fst status |})];
           unhandled_rejection := None;
           message_store := snd status |}
    | [] =>
        {| skipWaiting_requested := false; replies := [];
           unhandled_rejection :=
             Some "Cannot read properties of undefined (reading 'postMessage')";
           message_store := snd status |}
    end
  else
    {| skipWaiting_requested := false; replies := []; unhandled_rejection := None;
       message_store := contents st |}.

(** [event.respondWith(p)] as the page sees it: a response when [p] is
    fulfilled with one, a network error otherwise. *)
Inductive Delivered :=
  | DeliveredResponse (r : Response)
  | NetworkError.

Definition delivered (p : Settled) : Delivered :=
  match p with
  | Fulfilled (Some r) => DeliveredResponse r
  | Fulfilled None => NetworkError
  | Rejected _ => NetworkError
  end.

(** Writing one entry into the storage: [caches.open(name)], then
    [cache.put(key, resp)]. *)
Definition write (cs : CacheStorage) (e : string * string * Response) : CacheStorage :=
  cache_put (fst (fst e)) (snd (fst e)) (snd e) (caches_open (fst (fst e)) cs).

(** The storage operations of a [getCacheStatus] run, in program order, and
    the message of the first of them that rejects. *)
Definition status_ops (cs : CacheStorage) : list StorageOp :=
  OpKeys :: flat_map (λ name, [OpOpen name; OpCacheKeys name]) (caches_keys cs).

Fixpoint first_fault (fails : StorageOp → option string) (ops : list StorageOp)
    : option string :=
  match ops with
  | [] => None
  | op :: rest =>
      match fails op with
      | Some e => Some e
      | None => first_fault fails rest
      end
  end.

(** The entries the loop of [getCacheStatus] counts for a list of names. *)
Definition counted (names : list string) (cs : CacheStorage) : nat :=
  foldr (λ name acc, length (cache_keys name cs) + acc) 0 names.

(** ** The specification's wording of the claims that the code does not meet *)

(** Cache-first looks in the static partition only: a hit there is served
    without the network, a miss there goes to the network. *)
Definition cache_first_as_specified (self_origin : string)
    (network : string → option Response) (r : Request) (cs : CacheStorage) : Prop :=
  let h := fetch_handler self_origin network r cs in
  (∀ entry, cache_match STATIC_CACHE_NAME (cache_url r) cs = Some entry →
     respondWith h = Some (Fulfilled (Some entry), Immediately) ∧
     network_calls h = [] ∧ caches_after h = cs) ∧
  (cache_match STATIC_CACHE_NAME (cache_url r) cs = None →
     network_calls h = [url r] ∧
     ∀ response, network (url r) = Some response → ok response = true →
       respondWith h = Some (Fulfilled (Some response), AfterNetwork) ∧
       cache_match STATIC_CACHE_NAME (cache_url r) (caches_after h) = Some response).

(** Stale-while-revalidate with an entry: the entry is served, a refresh
    that succeeds, in that the network answers, replaces it, and a refresh
    that fails leaves it. *)
Definition swr_refresh_as_specified (self_origin : string)
    (network : string → option Response) (r : Request) (cs : CacheStorage) : Prop :=
  let h := fetch_handler self_origin network r cs in
  ∀ entry, cache_match DYNAMIC_CACHE_NAME (cache_url r) cs = Some entry →
    respondWith h = Some (Fulfilled (Some entry), Immediately) ∧
    (∀ response, network (url r) = Some response →
       cache_match DYNAMIC_CACHE_NAME (cache_url r) (caches_after h) = Some response) ∧
    (network (url r) = None →
       cache_match DYNAMIC_CACHE_NAME (cache_url r) (caches_after h) = Some entry).

(** Network-first falls back on the dynamic partition only. *)
Definition network_first_as_specified (network : string → option Response)
    (r : Request) (cs : CacheStorage) : Prop :=
  network (url r) = None →
  (∀ entry, cache_match DYNAMIC_CACHE_NAME (cache_url r) cs = Some entry →
     answer (networkFirstStrategy network r cs) = Fulfilled (Some entry)) ∧
  (cache_match DYNAMIC_CACHE_NAME (cache_url r) cs = None →
     answer (networkFirstStrategy network r cs) = Fulfilled (Some offline_response)).

(** Cleanup deletes every partition whose name is not a current one. *)
Definition cleanup_as_specified (cs : CacheStorage) : Prop :=
  ∀ name, name ∈ deleted (activate cs) ↔
          name ∈ caches_keys cs ∧ name ≠ STATIC_CACHE_NAME ∧ name ≠ DYNAMIC_CACHE_NAME.

(** Install completes and signals readiness whatever the network does. *)
Definition install_as_specified (self_origin : string)
    (network : string → option Response) (cs : CacheStorage) : Prop :=
  installation (install self_origin network cs) = Fulfilled () ∧
  skipWaiting_called (install self_origin network cs) = true.

(** The [SYNC_COMPLETE] message for [count] records. *)
Definition sync_complete (count : nat) : ClientMessage :=
  {| type := "SYNC_COMPLETE"; data := CountData count |}.

(** Every run that completes broadcasts the number of records retrieved. *)
Definition sync_as_specified (getPending : Promise (list Transaction))
    (process : Transaction → Promise unit) (clients : list string) : Prop :=
  ∀ pending, getPending = Fulfilled pending →
  sync_error (syncTransactions_with getPending process clients) = None →
  posted (syncTransactions_with getPending process clients)
  = map (λ client, (client, sync_complete (length pending))) clients.

(** ** Concrete requests, networks and storages *)

Module Sample.

Definition app : string := "https://app.example".

Definition fresh : Response := {| status := 200; statusText := "OK"; body := "fresh" |}.
Definition stale : Response := {| status := 200; statusText := "OK"; body := "stale" |}.
Definition missing : Response :=
  {| status := 404; statusText := "Not Found"; body := "" |}.

Definition online (u : string) : option Response := Some fresh.
Definition offline (u : string) : option Response := None.

(** Same origin; the key [cacheTransaction] derives for the id [t1]. *)
Definition transaction_request : Request :=
  {| method := "GET";
     target := {| protocol := "https:"; hostname := "app.example"; port := "";
                  pathname := "/transaction-t1" |};
     destination := "" |}.

Definition page_request : Request :=
  {| method := "GET";
     target := {| protocol := "https:"; hostname := "app.example"; port := "";
                  pathname := "/index.html" |};
     destination := "document" |}.

Definition cdn_request : Request :=
  {| method := "GET";
     target := {| protocol := "https:"; hostname := "unpkg.com"; port := "";
                  pathname := "/tesseract.js@4.0.2/dist/tesseract.min.js" |};
     destination := "script" |}.

Definition api_request : Request :=
  {| method := "GET";
     target := {| protocol := "https:"; hostname := "api.exchangerate-api.com";
                  port := ""; pathname := "/v4/latest/USD" |};
     destination := "" |}.

Definition post_request : Request :=
  {| method := "POST";
     target := {| protocol := "https:"; hostname := "app.example"; port := "";
                  pathname := "/upload" |};
     destination := "" |}.

Definition extension_request : Request :=
  {| method := "GET";
     target := {| protocol := "chrome-extension:"; hostname := "abcdef"; port := "";
                  pathname := "/content.js" |};
     destination := "script" |}.

(** The two current partitions, empty. *)
Definition installed : CacheStorage :=
  [(STATIC_CACHE_NAME, ∅); (DYNAMIC_CACHE_NAME, ∅)].

(** How the platform files a relative URL string without fragment for a
    worker whose script is at the root of [app]. *)
Definition at_root (s : string) : option string := Some (app ++ "/" ++ s).

(** The storage after the page has sent [CACHE_TRANSACTION] for [t1]. *)
Definition with_transaction : CacheStorage :=
  message_store
    (message_handler at_root "2024-01-01T00:00:00.000Z"
       {| message_type := "CACHE_TRANSACTION";
          message_data := Some {| data_id := "t1"; data_json := "{}" |};
          ports := [] |}
       (healthy installed)).

(** The static partition holds the page. *)
Definition with_page : CacheStorage :=
  [(STATIC_CACHE_NAME, {[ cache_url page_request := stale ]}); (DYNAMIC_CACHE_NAME, ∅)].

(** The dynamic partition holds the library. *)
Definition with_library : CacheStorage :=
  [(STATIC_CACHE_NAME, ∅); (DYNAMIC_CACHE_NAME, {[ cache_url cdn_request := stale ]})].

(** The dynamic partition holds the rates. *)
Definition with_rates : CacheStorage :=
  [(STATIC_CACHE_NAME, ∅); (DYNAMIC_CACHE_NAME, {[ cache_url api_request := stale ]})].

(** A partition of the page's own, made before the worker's, holds the
    rates; the dynamic partition does not. *)
Definition with_foreign_rates : CacheStorage :=
  [("offline-data", {[ cache_url api_request := stale ]});
   (STATIC_CACHE_NAME, ∅); (DYNAMIC_CACHE_NAME, ∅)].

(** The current partitions, an older version of the static one, and a
    partition whose name does not begin with [finance-]. *)
Definition with_old_versions : CacheStorage :=
  [("finance-static-v2.0.0", {[ cache_url page_request := stale ]});
   ("offline-data", {[ cache_url api_request := stale ]});
   (STATIC_CACHE_NAME, ∅); (DYNAMIC_CACHE_NAME, ∅)].

Definition three_partitions : CacheStorage :=
  [(STATIC_CACHE_NAME, ∅); (DYNAMIC_CACHE_NAME, ∅); ("offline-data", ∅)].

(** Everything answers but the page itself. *)
Definition page_unreachable (u : string) : option Response :=
  if String.eqb u (url page_request) then None else Some fresh.

(** The CDNs are down, the application's own server is up. *)
Definition cdn_down (u : string) : option Response :=
  if startsWith u app then Some fresh else None.

Definition two_pending : list Transaction :=
  [ {| transaction_id := "t1" |}; {| transaction_id := "t2" |} ].

(** A storage whose cache list cannot be read. *)
Definition broken : Storage :=
  {| contents := with_page;
     fault := λ op, match op with
                    | OpKeys => Some "The operation is insecure."
                    | _ => None
                    end |}.

Definition status_request : MessageEvent :=
  {| message_type := "GET_CACHE_STATUS"; message_data := None; ports := ["port-1"] |}.

Definition three_entries : list (string * string * Response) :=
  [ (STATIC_CACHE_NAME, "https://app.example/", fresh);
    (DYNAMIC_CACHE_NAME, "https://app.example/", stale);
    (STATIC_CACHE_NAME, "https://app.example/index.html", fresh) ].

End Sample.

(** ** Periodic sync (sw.js, lines 318-347) *)

Section ExchangeRates.

(** The URL under which the Cache API files a URL string (see
    [cacheTransaction]), the network, and what
    [JSON.stringify(await response.json())] makes of a body text: [None]
    when the text is not JSON, on which [response.json()] rejects. *)
Variable resolve : string → option string.
Variable network : string → option Response.
Variable reserialise : string → option string.

Definition EXCHANGE_RATES_URL : string := "https://api.exchangerate-api.com/v4/latest/USD".

(** [updateExchangeRates()]: the storage it leaves behind. *)
Definition updateExchangeRates (cs : CacheStorage) : CacheStorage :=
  match network EXCHANGE_RATES_URL with
  | Some response =>
      if ok response then
        match reserialise (body response) with
        | Some text =>
            match resolve "exchange-rates" with
            | Some key =>
                cache_put DYNAMIC_CACHE_NAME key (plain_response text)
                  (caches_open DYNAMIC_CACHE_NAME cs)
            | None => caches_open DYNAMIC_CACHE_NAME cs
            end
        | None => cs
        end
      else cs
  | None => cs
  end.

(** The periodicsync handler: only the tag [update-exchange-rates] starts an
    update. *)
Definition periodicsync_handler (tag : string) (cs : CacheStorage) : CacheStorage :=
  if String.eqb tag "update-exchange-rates" then updateExchangeRates cs else cs.

End ExchangeRates.

(** Every partition that holds [key] holds the response [v] under it. *)
Definition holders_agree (key : string) (v : Response) (cs : CacheStorage) : Prop :=
  ∀ name c, (name, c) ∈ cs → c !! key = None ∨ c !! key = Some v.

(** ** Further concrete inputs *)

Module Scenario.

(** A host that is none of the allow-listed ones and contains one. *)
Definition lookalike : URL :=
  {| protocol := "https:"; hostname := "unpkg.com.attacker.example"; port := "";
     pathname := "/payload.js" |}.

(** A navigation to a page of the application that was never cached. *)
Definition report_request : Request :=
  {| method := "GET";
     target := {| protocol := "https:"; hostname := "app.example"; port := "";
                  pathname := "/reports/2024" |};
     destination := "document" |}.

Definition image_request : Request :=
  {| method := "GET";
     target := {| protocol := "https:"; hostname := "app.example"; port := "";
                  pathname := "/icons/icon-192x192.png" |};
     destination := "image" |}.

Definition newer : Response := {| status := 200; statusText := "OK"; body := "newer" |}.

(** The answer to a range request. *)
Definition part : Response :=
  {| status := 206; statusText := "Partial Content"; body := "part" |}.

Definition ranged (u : string) : option Response := Some part.

(** The rates, asked for with a fragment. *)
Definition anchored_request : Request :=
  {| method := "GET";
     target := {| protocol := "https:"; hostname := "api.exchangerate-api.com";
                  port := ""; pathname := "/v4/latest/USD#today" |};
     destination := "" |}.

(** How the platform files a relative URL string without fragment for a
    worker whose script is in the directory [/local-finance/]. *)
Definition below_root (s : string) : option string :=
  Some ("https://app.example/local-finance/" ++ s).

(** The network after a new version was deployed. *)
Definition redeployed (u : string) : option Response := Some newer.

(** Every URL answers with 404. *)
Definition not_found (u : string) : option Response := Some Sample.missing.

(** A processor that fails on the record [t2]. *)
Definition fails_on_t2 (transaction : Transaction) : Promise unit :=
  if String.eqb (transaction_id transaction) "t2" then Rejected "quota exceeded"
  else Fulfilled ().

Definition three_pending : list Transaction :=
  [ {| transaction_id := "t1" |}; {| transaction_id := "t2" |};
    {| transaction_id := "t3" |} ].


Definition rates : Response :=
  {| status := 200; statusText := "OK"; body := "[ 1, 2 ]" |}.

Definition rates_endpoint (u : string) : option Response :=
  if String.eqb u EXCHANGE_RATES_URL then Some rates else None.

(** A JSON round trip that drops the blanks of the text. *)
Fixpoint drop_blanks (text : string) : string :=
  match text with
  | EmptyString => EmptyString
  | String a rest =>
      if Ascii.eqb a Ascii.Space then drop_blanks rest else String a (drop_blanks rest)
  end.

Definition compact (text : string) : option string := Some (drop_blanks text).

End Scenario.

(** * Properties *)

(** ** Strings and requests *)

Lemma eqb_true (a b : string) : String.eqb a b = true ↔ a = b.
Proof. apply String.eqb_eq. Qed.

Lemma eqb_false (a b : string) : String.eqb a b = false ↔ a ≠ b.
Proof. apply String.eqb_neq. Qed.

Lemma eqb_same (a : string) : String.eqb a a = true.
Proof. apply String.eqb_refl. Qed.

Lemma request_key_GET (r : Request) : method r = "GET" → request_key r = Some (cache_url r).
Proof. intros H. unfold request_key. now rewrite H. Qed.

Lemma cache_put_request_GET (name : string) (r : Request) (resp : Response)
    (cs : CacheStorage) :
  method r = "GET" →
  cache_put_request name r resp cs
  = if partial_content resp then cs else cache_put name (cache_url r) resp cs.
Proof. intros H. unfold cache_put_request. now rewrite (request_key_GET r H). Qed.

Lemma http_scheme_startsWith (r : Request) :
  http_scheme r → startsWith (url r) "http" = true.
Proof.
  unfold url, href, startsWith.
  intros [H | H]; rewrite H; reflexivity.
Qed.

(** ** The cache storage *)

Section StorageFacts.

Implicit Types (cs pre post : CacheStorage) (name key : string) (resp : Response).

Lemma caches_find_app name cs cs' :
  caches_find name (cs ++ cs')%list
  = match caches_find name cs with
    | Some c => Some c
    | None => caches_find name cs'
    end.
Proof.
  induction cs as [| [n c] cs IH]; simpl; [reflexivity |].
  destruct (String.eqb n name); [reflexivity | exact IH].
Qed.

Lemma caches_open_existing name cs c :
  caches_find name cs = Some c → caches_open name cs = cs.
Proof. intros H. unfold caches_open. now rewrite H. Qed.

Lemma caches_find_open name cs :
  caches_find name (caches_open name cs) = Some (default ∅ (caches_find name cs)).
Proof.
  unfold caches_open. destruct (caches_find name cs) as [c |] eqn:E.
  - now rewrite E.
  - rewrite caches_find_app, E. simpl. now rewrite eqb_same.
Qed.

Lemma caches_find_open_ne name n cs :
  name ≠ n → caches_find n (caches_open name cs) = caches_find n cs.
Proof.
  intros Hne. unfold caches_open. destruct (caches_find name cs); [reflexivity |].
  rewrite caches_find_app. destruct (caches_find n cs); [reflexivity |].
  simpl. apply eqb_false in Hne. now rewrite Hne.
Qed.

Lemma caches_find_put name key resp cs :
  caches_find name (cache_put name key resp cs) = (<[key := resp]>) <$> caches_find name cs.
Proof.
  induction cs as [| [n c] cs IH]; simpl; [reflexivity |].
  destruct (String.eqb n name) eqn:E; simpl; rewrite E; [reflexivity | exact IH].
Qed.

Lemma caches_find_put_ne name n key resp cs :
  name ≠ n → caches_find n (cache_put name key resp cs) = caches_find n cs.
Proof.
  intros Hne. induction cs as [| [m c] cs IH]; simpl; [reflexivity |].
  destruct (String.eqb m name) eqn:E; simpl.
  - apply eqb_true in E. subst m. apply eqb_false in Hne. now rewrite Hne.
  - destruct (String.eqb m n); [reflexivity | exact IH].
Qed.

(** What was put into a cache that was opened is what a lookup finds. *)
Lemma cache_match_put_open name key resp cs :
  cache_match name key (cache_put name key resp (caches_open name cs)) = Some resp.
Proof.
  unfold cache_match. rewrite caches_find_put, caches_find_open. simpl.
  apply lookup_insert_eq.
Qed.

(** [caches.match] answers from the first cache that holds the key. *)
Lemma caches_match_first_holder key pre name c post entry :
  caches_match key pre = None → c !! key = Some entry →
  caches_match key (pre ++ (name, c) :: post)%list = Some entry.
Proof.
  intros Hpre Hc. induction pre as [| [n d] pre IH]; simpl in *.
  - now rewrite Hc.
  - destruct (d !! key); [discriminate | now apply IH].
Qed.

(** Whatever [caches.match] answers is held by some cache. *)
Lemma caches_match_held key cs entry :
  caches_match key cs = Some entry →
  ∃ name, name ∈ caches_keys cs ∧
          ∃ pre c post, cs = (pre ++ (name, c) :: post)%list ∧
                        caches_match key pre = None ∧ c !! key = Some entry.
Proof.
  induction cs as [| [n d] cs IH]; simpl; [discriminate |].
  destruct (d !! key) as [e |] eqn:E.
  - intros [= <-]. exists n. split; [left |].
    exists [], d, cs. repeat split; assumption.
  - intros H. destruct (IH H) as (name & Hin & pre & c & post & -> & Hpre & Hc).
    exists name. split; [now right |].
    exists ((n, d) :: pre), c, post. repeat split; simpl; [now rewrite E | assumption].
Qed.

(** A key that no cache holds is not matched, and conversely. *)
Lemma caches_match_None key cs :
  caches_match key cs = None ↔ ∀ name c, (name, c) ∈ cs → c !! key = None.
Proof.
  induction cs as [| [n d] cs IH]; simpl.
  - split; [intros _ name c H; inversion H | reflexivity].
  - destruct (d !! key) as [e |] eqn:E.
    + split; [discriminate |]. intros H. rewrite (H n d) in E; [discriminate | left].
    + rewrite IH. split.
      * intros H name c [[= -> ->] | Hin]%elem_of_cons; [assumption | eauto].
      * intros H name c Hin. apply (H name c). now right.
Qed.

End StorageFacts.

(** ** Routing of the fetch handler *)

Section Routing.

Variable self_origin : string.
Variable network : string → option Response.

Lemma fetch_handler_same_origin r cs :
  method r = "GET" → http_scheme r → origin (target r) = self_origin →
  fetch_handler self_origin network r cs
  = respond (cacheFirstStrategy self_origin network r cs).
Proof.
  intros Hm Hs Ho. unfold fetch_handler.
  rewrite Hm, (http_scheme_startsWith r Hs), Ho, (eqb_same self_origin). reflexivity.
Qed.

Lemma fetch_handler_cdn r cs :
  method r = "GET" → http_scheme r → origin (target r) ≠ self_origin →
  isCDNResource (target r) = true →
  fetch_handler self_origin network r cs
  = respond (staleWhileRevalidateStrategy network r cs).
Proof.
  intros Hm Hs Ho Hc. unfold fetch_handler.
  apply eqb_false in Ho.
  rewrite Hm, (http_scheme_startsWith r Hs), Ho, Hc. reflexivity.
Qed.

Lemma fetch_handler_other r cs :
  method r = "GET" → http_scheme r → origin (target r) ≠ self_origin →
  isCDNResource (target r) = false →
  fetch_handler self_origin network r cs
  = respond (networkFirstStrategy network r cs).
Proof.
  intros Hm Hs Ho Hc. unfold fetch_handler.
  apply eqb_false in Ho.
  rewrite Hm, (http_scheme_startsWith r Hs), Ho, Hc. reflexivity.
Qed.

End Routing.

(** ** Cache-first *)

(** C1, as the code has it.  For every same-origin GET request over http(s):
    if any partition holds an entry for it, cache-first returns the first
    such entry in partition order at once, with no network call and the
    storage untouched (so the static partition's entry, when no partition
    created before it holds one); if no partition holds an entry, the
    request is fetched and the response of the network is returned, whatever
    its status; if that response is [ok] and not partial, it is what the
    static partition then holds for the request, and if it is not [ok] the
    storage is left as it was.  Entries are held and found by the URL of
    the request without its fragment. *)
Theorem cache_first_serves_any_partition
    (self_origin : string) (network : string → option Response)
    (r : Request) (cs : CacheStorage) :
  method r = "GET" → http_scheme r → origin (target r) = self_origin →
  let h := fetch_handler self_origin network r cs in
  (∀ entry, caches_match (cache_url r) cs = Some entry →
     respondWith h = Some (Fulfilled (Some entry), Immediately) ∧
     network_calls h = [] ∧ caches_after h = cs) ∧
  (∀ pre c post entry,
     cs = (pre ++ (STATIC_CACHE_NAME, c) :: post)%list →
     caches_match (cache_url r) pre = None → c !! cache_url r = Some entry →
     respondWith h = Some (Fulfilled (Some entry), Immediately) ∧
     network_calls h = [] ∧ caches_after h = cs) ∧
  (caches_match (cache_url r) cs = None →
     network_calls h = [url r] ∧
     ∀ response, network (url r) = Some response →
       respondWith h = Some (Fulfilled (Some response), AfterNetwork) ∧
       (ok response = true → partial_content response = false →
        cache_match STATIC_CACHE_NAME (cache_url r) (caches_after h) = Some response) ∧
       (ok response = false → caches_after h = cs)).
Proof.
  intros Hm Hs Ho h.
  assert (Hhit : ∀ entry, caches_match (cache_url r) cs = Some entry →
            respondWith h = Some (Fulfilled (Some entry), Immediately) ∧
            network_calls h = [] ∧ caches_after h = cs).
  { intros entry He. subst h.
    rewrite (fetch_handler_same_origin _ _ _ _ Hm Hs Ho).
    unfold cacheFirstStrategy, caches_match_request.
    rewrite (request_key_GET r Hm). simpl. rewrite He. simpl. auto. }
  split; [exact Hhit |]. split.
  - intros pre c post entry -> Hpre Hc. apply Hhit.
    now apply caches_match_first_holder.
  - intros Hmiss. subst h.
    rewrite (fetch_handler_same_origin _ _ _ _ Hm Hs Ho).
    unfold cacheFirstStrategy, caches_match_request.
    rewrite (request_key_GET r Hm). simpl. rewrite Hmiss.
    split.
    + destruct (network (url r)); reflexivity.
    + intros response Hn. rewrite Hn. simpl.
      split; [reflexivity |]. split.
      * intros Hok Hfull. rewrite Hok, (cache_put_request_GET _ _ _ _ Hm), Hfull.
        apply cache_match_put_open.
      * intros Hok. now rewrite Hok.
Qed.

Lemma cache_first_serves_any_partition_witness :
  respondWith (fetch_handler Sample.app Sample.online Sample.page_request Sample.with_page)
  = Some (Fulfilled (Some Sample.stale), Immediately) ∧
  network_calls (fetch_handler Sample.app Sample.online Sample.page_request Sample.with_page)
  = [].
Proof.
  destruct (cache_first_serves_any_partition
              Sample.app Sample.online Sample.page_request Sample.with_page
              eq_refl (or_intror eq_refl) eq_refl) as [H _].
  destruct (H Sample.stale) as (Ha & Hb & _); [vm_compute; reflexivity |].
  split; assumption.
Defined.

(** C1, as the specification words it, fails: the dynamic partition holds
    the entry of a cached transaction, the static partition holds nothing
    for that URL, and cache-first serves the dynamic entry without any
    fetch. *)
Lemma cache_first_not_as_specified :
  ¬ cache_first_as_specified Sample.app Sample.online
      Sample.transaction_request Sample.with_transaction.
Proof.
  intros [_ H]. destruct H as [Hcalls _]; [vm_compute; reflexivity |].
  vm_compute in Hcalls. discriminate Hcalls.
Qed.

(** ** Stale-while-revalidate *)

Lemma cache_match_open (name key : string) (cs : CacheStorage) :
  cache_match name key (caches_open name cs) = cache_match name key cs.
Proof.
  unfold cache_match. rewrite caches_find_open.
  destruct (caches_find name cs); simpl; [reflexivity | apply lookup_empty].
Qed.

Lemma cache_match_Some_open (name key : string) (cs : CacheStorage) (entry : Response) :
  cache_match name key cs = Some entry → caches_open name cs = cs.
Proof.
  unfold cache_match. destruct (caches_find name cs) as [c |] eqn:E; [| discriminate].
  intros _. now apply caches_open_existing with c.
Qed.

(** The strategy on a request whose entry the dynamic partition holds. *)
Lemma swr_hit (network : string → option Response) (r : Request) (cs : CacheStorage)
    (entry : Response) :
  method r = "GET" → cache_match DYNAMIC_CACHE_NAME (cache_url r) cs = Some entry →
  staleWhileRevalidateStrategy network r cs
  = {| answer := Fulfilled (Some entry); timing := Immediately; fetched := [url r];
       store := match network (url r) with
                | Some response =>
                    if ok response && negb (partial_content response)
                    then cache_put DYNAMIC_CACHE_NAME (cache_url r) response cs
                    else cs
                | None => cs
                end |}.
Proof.
  intros Hm He. unfold staleWhileRevalidateStrategy, cache_match_request, cache_put_request.
  rewrite (request_key_GET r Hm). simpl.
  rewrite cache_match_open, He, (cache_match_Some_open _ _ _ _ He).
  destruct (network (url r)) as [response |]; [| reflexivity].
  destruct (ok response), (partial_content response); reflexivity.
Qed.

(** C2, as the code has it.  For every GET request over http(s) to an
    allow-listed origin other than the worker's own, with an entry in the
    dynamic partition: the handler answers with that entry at once, whatever
    the network does; one fetch of the request is issued; once it has
    settled, the dynamic partition holds the fetched response if that is
    [ok] and not partial, and the storage is as before if the fetch failed
    or answered with a response that is not [ok]. *)
Theorem swr_serves_stale_and_refreshes
    (self_origin : string) (network : string → option Response)
    (r : Request) (cs : CacheStorage) (entry : Response) :
  method r = "GET" → http_scheme r →
  origin (target r) ≠ self_origin → isCDNResource (target r) = true →
  cache_match DYNAMIC_CACHE_NAME (cache_url r) cs = Some entry →
  let h := fetch_handler self_origin network r cs in
  respondWith h = Some (Fulfilled (Some entry), Immediately) ∧
  network_calls h = [url r] ∧
  (∀ response, network (url r) = Some response → ok response = true →
     partial_content response = false →
     cache_match DYNAMIC_CACHE_NAME (cache_url r) (caches_after h) = Some response) ∧
  (network (url r) = None →
     caches_after h = cs ∧
     cache_match DYNAMIC_CACHE_NAME (cache_url r) (caches_after h) = Some entry) ∧
  (∀ response, network (url r) = Some response → ok response = false →
     caches_after h = cs ∧
     cache_match DYNAMIC_CACHE_NAME (cache_url r) (caches_after h) = Some entry).
Proof.
  intros Hm Hs Ho Hc He h. subst h.
  rewrite (fetch_handler_cdn _ _ _ _ Hm Hs Ho Hc), (swr_hit _ _ _ _ Hm He).
  unfold respond. simpl.
  split; [reflexivity |]. split; [reflexivity |]. split; [| split].
  - intros response Hn Hok Hfull. rewrite Hn, Hok, Hfull. simpl.
    unfold cache_match. rewrite caches_find_put.
    unfold cache_match in He. destruct (caches_find DYNAMIC_CACHE_NAME cs); [| discriminate].
    simpl. apply lookup_insert_eq.
  - intros Hn. rewrite Hn. auto.
  - intros response Hn Hok. rewrite Hn, Hok. auto.
Qed.

Lemma swr_serves_stale_and_refreshes_witness :
  respondWith (fetch_handler Sample.app Sample.online Sample.cdn_request Sample.with_library)
  = Some (Fulfilled (Some Sample.stale), Immediately) ∧
  cache_match DYNAMIC_CACHE_NAME (cache_url Sample.cdn_request)
    (caches_after
       (fetch_handler Sample.app Sample.online Sample.cdn_request Sample.with_library))
  = Some Sample.fresh.
Proof.
  assert (Hne : origin (target Sample.cdn_request) ≠ Sample.app)
    by (vm_compute; discriminate).
  assert (He : cache_match DYNAMIC_CACHE_NAME (cache_url Sample.cdn_request) Sample.with_library
               = Some Sample.stale) by (vm_compute; reflexivity).
  destruct (swr_serves_stale_and_refreshes
              Sample.app Sample.online Sample.cdn_request Sample.with_library Sample.stale
              eq_refl (or_intror eq_refl) Hne eq_refl He) as (Ha & _ & Hfresh & _).
  split; [exact Ha |]. apply Hfresh; reflexivity.
Defined.

(** C2, as the specification words it, fails: the library is held, the
    refresh is answered, and the entry is not replaced, neither when the
    answer is a 404 response nor when it is a partial response, which is
    [ok] and which the cache refuses. *)
Lemma swr_refresh_not_as_specified :
  ¬ swr_refresh_as_specified Sample.app Scenario.not_found Sample.cdn_request
      Sample.with_library ∧
  ¬ swr_refresh_as_specified Sample.app Scenario.ranged Sample.cdn_request
      Sample.with_library.
Proof.
  split; intros H;
    (destruct (H Sample.stale) as (_ & Hnew & _); [vm_compute; reflexivity |];
     specialize (Hnew _ eq_refl); vm_compute in Hnew; discriminate Hnew).
Qed.

(** Stale-while-revalidate without an entry: the caller waits for the one
    fetch issued; it receives the response when the fetch answers, [ok] or
    not; when the fetch fails, the error is caught and the promise is
    fulfilled with what the [catch] returns, the cached response, which on
    this path is [undefined]. *)
Lemma swr_miss_waits_for_network
    (network : string → option Response) (r : Request) (cs : CacheStorage) :
  cache_match DYNAMIC_CACHE_NAME (cache_url r) cs = None →
  let o := staleWhileRevalidateStrategy network r cs in
  timing o = AfterNetwork ∧ fetched o = [url r] ∧
  (∀ response, network (url r) = Some response → answer o = Fulfilled (Some response)) ∧
  (network (url r) = None →
     answer o = Fulfilled None ∧ delivered (answer o) = NetworkError).
Proof.
  intros He o.
  assert (Hmiss : cache_match_request DYNAMIC_CACHE_NAME r
                    (caches_open DYNAMIC_CACHE_NAME cs) = None).
  { unfold cache_match_request, request_key.
    destruct (String.eqb (method r) "GET"); simpl; [| reflexivity].
    now rewrite cache_match_open. }
  subst o. unfold staleWhileRevalidateStrategy. rewrite Hmiss. simpl.
  split; [reflexivity |]. split; [reflexivity |]. split.
  - intros response Hn. now rewrite Hn.
  - intros Hn. rewrite Hn. simpl. auto.
Qed.


(** ** Network-first *)

(** The strategy when the fetch fails. *)
Lemma network_first_offline (network : string → option Response) (r : Request)
    (cs : CacheStorage) :
  method r = "GET" → network (url r) = None →
  networkFirstStrategy network r cs
  = {| answer := match caches_match (cache_url r) cs with
                 | Some cachedResponse => Fulfilled (Some cachedResponse)
                 | None => Fulfilled (Some offline_response)
                 end;
       timing := AfterNetwork; fetched := [url r]; store := cs |}.
Proof.
  intros Hm Hn. unfold networkFirstStrategy, caches_match_request.
  rewrite Hn, (request_key_GET r Hm). reflexivity.
Qed.

(** C4, as the code has it.  For every network-first GET request whose fetch
    fails with a network error: if any partition holds an entry for the
    request, the first such entry in partition order is returned rather than
    an error (so the dynamic partition's entry, when no partition created
    before it holds one); if no partition holds an entry, the synthesized
    503 response with status text [Service Unavailable] is returned.  The
    storage is left as it was.  An entry is held for a request when it is
    filed under the URL of the request without its fragment. *)
Theorem network_first_falls_back_on_any_partition
    (network : string → option Response) (r : Request) (cs : CacheStorage) :
  method r = "GET" → network (url r) = None →
  let o := networkFirstStrategy network r cs in
  (∀ entry, caches_match (cache_url r) cs = Some entry → answer o = Fulfilled (Some entry)) ∧
  (∀ pre c post entry,
     cs = (pre ++ (DYNAMIC_CACHE_NAME, c) :: post)%list →
     caches_match (cache_url r) pre = None → c !! cache_url r = Some entry →
     answer o = Fulfilled (Some entry)) ∧
  (caches_match (cache_url r) cs = None →
     answer o = Fulfilled (Some offline_response) ∧
     status offline_response = 503%Z ∧
     statusText offline_response = "Service Unavailable") ∧
  store o = cs.
Proof.
  intros Hm Hn o. subst o. rewrite (network_first_offline _ _ _ Hm Hn). simpl.
  assert (Hhit : ∀ entry, caches_match (cache_url r) cs = Some entry →
            match caches_match (cache_url r) cs with
            | Some cachedResponse => Fulfilled (Some cachedResponse)
            | None => Fulfilled (Some offline_response)
            end = Fulfilled (Some entry)).
  { intros entry He. now rewrite He. }
  split; [exact Hhit |]. split; [| split; [| reflexivity]].
  - intros pre c post entry -> Hpre Hc. apply Hhit.
    now apply caches_match_first_holder.
  - intros Hmiss. rewrite Hmiss. auto.
Qed.

Lemma network_first_falls_back_on_any_partition_witness :
  answer (networkFirstStrategy Sample.offline Scenario.anchored_request Sample.with_rates)
  = Fulfilled (Some Sample.stale).
Proof.
  destruct (network_first_falls_back_on_any_partition
              Sample.offline Scenario.anchored_request Sample.with_rates eq_refl eq_refl)
    as (H & _).
  apply H. vm_compute. reflexivity.
Defined.

(** C4, as the specification words it, fails: the dynamic partition holds
    nothing for the request, another partition does, and that entry is
    returned, not the 503 response. *)
Lemma network_first_not_as_specified :
  ¬ network_first_as_specified Sample.offline Sample.api_request Sample.with_foreign_rates.
Proof.
  intros H. destruct H as [_ H]; [reflexivity |].
  specialize (H ltac:(vm_compute; reflexivity)).
  vm_compute in H. discriminate H.
Qed.

(** C10.  For every network-first GET request whose fetch fails, the
    fallback lookup goes through every partition in order: whenever some
    partition, of whatever name, holds an entry for the request, an entry
    is returned and never the 503 response; the entry returned is the one
    of the first partition that holds one, so the entry of a given
    partition is returned whenever no partition created before it holds
    one; that holds for the static partition as for any other. *)
Theorem network_first_fallback_searches_every_partition
    (network : string → option Response) (r : Request) (cs : CacheStorage)
    (name : string) (c : gmap string Response) (entry : Response) :
  method r = "GET" → network (url r) = None →
  (name, c) ∈ cs → c !! cache_url r = Some entry →
  let o := networkFirstStrategy network r cs in
  (∃ served holder held,
     answer o = Fulfilled (Some served) ∧
     caches_match (cache_url r) cs = Some served ∧
     (holder, held) ∈ cs ∧ held !! cache_url r = Some served) ∧
  (∀ pre post, cs = (pre ++ (name, c) :: post)%list →
     caches_match (cache_url r) pre = None → answer o = Fulfilled (Some entry)) ∧
  (∀ static_cache static_entry rest,
     cs = (STATIC_CACHE_NAME, static_cache) :: rest →
     static_cache !! cache_url r = Some static_entry →
     answer o = Fulfilled (Some static_entry)).
Proof.
  intros Hm Hn Hin Hc o. subst o. rewrite (network_first_offline _ _ _ Hm Hn). simpl.
  split; [| split].
  - destruct (caches_match (cache_url r) cs) as [served |] eqn:E.
    + destruct (caches_match_held _ _ _ E)
        as (holder & _ & pre & held & post & -> & _ & Hheld).
      exists served, holder, held. repeat split; try assumption.
      apply elem_of_app. right. left.
    + exfalso. rewrite caches_match_None in E.
      rewrite (E name c Hin) in Hc. discriminate Hc.
  - intros pre post -> Hpre.
    now rewrite (caches_match_first_holder _ pre name c post entry Hpre Hc).
  - intros static_cache static_entry rest -> Hs. simpl. now rewrite Hs.
Qed.

Lemma network_first_fallback_searches_every_partition_witness :
  answer (networkFirstStrategy Sample.offline Sample.api_request Sample.with_foreign_rates)
  = Fulfilled (Some Sample.stale).
Proof.
  assert (Hin : ("offline-data", {[ cache_url Sample.api_request := Sample.stale ]})
                ∈ Sample.with_foreign_rates) by left.
  assert (Hc : ({[ cache_url Sample.api_request := Sample.stale ]} : gmap string Response)
               !! cache_url Sample.api_request = Some Sample.stale)
    by (vm_compute; reflexivity).
  destruct (network_first_fallback_searches_every_partition
              Sample.offline Sample.api_request Sample.with_foreign_rates
              "offline-data" {[ cache_url Sample.api_request := Sample.stale ]} Sample.stale
              eq_refl eq_refl Hin Hc) as (_ & H & _).
  apply (H [] [(STATIC_CACHE_NAME, ∅); (DYNAMIC_CACHE_NAME, ∅)]); reflexivity.
Defined.

(** ** Activate *)

Section Cleanup.

Implicit Types (cs : CacheStorage) (name : string).

(** Deleting the names of a list one after the other keeps the caches
    whose name is not in the list. *)
Lemma foldl_caches_delete cs (names : list string) :
  foldl (λ s cacheName, caches_delete cacheName s) cs names
  = List.filter (λ p, negb (existsb (String.eqb (fst p)) names)) cs.
Proof.
  revert cs. induction names as [| n names IH]; intros cs; simpl.
  - induction cs as [| p cs IHcs]; simpl; [reflexivity | now rewrite <- IHcs].
  - rewrite IH. unfold caches_delete. clear IH.
    induction cs as [| p cs IHcs]; simpl; [reflexivity |].
    destruct (String.eqb (fst p) n); simpl.
    + exact IHcs.
    + destruct (existsb (String.eqb (fst p)) names); simpl; [exact IHcs | now rewrite IHcs].
Qed.

Lemma existsb_eqb name (names : list string) :
  existsb (String.eqb name) names = true ↔ name ∈ names.
Proof.
  rewrite existsb_exists, list_elem_of_In. split.
  - intros (n & Hin & ->%eqb_true). exact Hin.
  - intros Hin. exists name. split; [exact Hin | apply eqb_same].
Qed.

Lemma old_cache_spec name :
  old_cache name = true ↔
  startsWith name "finance-" = true ∧ name ≠ STATIC_CACHE_NAME ∧ name ≠ DYNAMIC_CACHE_NAME.
Proof.
  unfold old_cache. rewrite !andb_true_iff, !negb_true_iff, !eqb_false. tauto.
Qed.

Lemma deleted_spec cs name :
  name ∈ deleted (activate cs) ↔ name ∈ caches_keys cs ∧ old_cache name = true.
Proof.
  unfold activate. simpl. rewrite !list_elem_of_In. apply filter_In.
Qed.

Lemma activated_store_filter cs :
  activated_store (activate cs) = List.filter (λ p, negb (old_cache (fst p))) cs.
Proof.
  unfold activate. simpl. rewrite foldl_caches_delete.
  apply filter_ext_in. intros p Hp. f_equal.
  apply eq_true_iff_eq. rewrite existsb_eqb.
  change (fst p ∈ deleted (activate cs) ↔ old_cache (fst p) = true).
  rewrite deleted_spec. split; [tauto |]. intros H. split; [| exact H].
  unfold caches_keys. apply list_elem_of_In, in_map, Hp.
Qed.

Lemma caches_find_filter (keep : string → bool) name cs :
  keep name = true →
  caches_find name (List.filter (λ p, keep (fst p)) cs) = caches_find name cs.
Proof.
  intros Hk. induction cs as [| [n c] cs IH]; simpl; [reflexivity |].
  destruct (String.eqb n name) eqn:E.
  - apply eqb_true in E. subst n. rewrite Hk. simpl. now rewrite eqb_same.
  - destruct (keep n); simpl; [rewrite E |]; exact IH.
Qed.

End Cleanup.

(** C5, as the code has it.  On activate exactly those extant partitions are
    deleted whose name begins with [finance-] and is neither the current
    static nor the current dynamic name; every other partition, the two
    current ones among them, stays with the entries it had. *)
Theorem activate_deletes_old_finance_partitions (cs : CacheStorage) :
  (∀ name, name ∈ deleted (activate cs) ↔
           name ∈ caches_keys cs ∧ startsWith name "finance-" = true ∧
           name ≠ STATIC_CACHE_NAME ∧ name ≠ DYNAMIC_CACHE_NAME) ∧
  (∀ name c, (name, c) ∈ activated_store (activate cs) ↔
             (name, c) ∈ cs ∧ name ∉ deleted (activate cs)) ∧
  caches_find STATIC_CACHE_NAME (activated_store (activate cs))
  = caches_find STATIC_CACHE_NAME cs ∧
  caches_find DYNAMIC_CACHE_NAME (activated_store (activate cs))
  = caches_find DYNAMIC_CACHE_NAME cs.
Proof.
  split; [| split; [| split]].
  - intros name. rewrite deleted_spec, old_cache_spec. reflexivity.
  - intros name c. rewrite activated_store_filter, deleted_spec.
    rewrite !list_elem_of_In, filter_In. simpl. rewrite negb_true_iff.
    split.
    + intros [Hin Hold]. split; [exact Hin |]. intros [_ H]. congruence.
    + intros [Hin Hnot]. split; [exact Hin |].
      destruct (old_cache name) eqn:E; [| reflexivity].
      exfalso. apply Hnot. split; [| reflexivity].
      unfold caches_keys. change name with (fst (name, c)). apply in_map, Hin.
  - rewrite activated_store_filter.
    apply (caches_find_filter (λ n, negb (old_cache n))). reflexivity.
  - rewrite activated_store_filter.
    apply (caches_find_filter (λ n, negb (old_cache n))). reflexivity.
Qed.

Lemma activate_deletes_old_finance_partitions_witness :
  "finance-static-v2.0.0" ∈ deleted (activate Sample.with_old_versions) ∧
  caches_find STATIC_CACHE_NAME (activated_store (activate Sample.with_old_versions))
  = Some ∅.
Proof.
  destruct (activate_deletes_old_finance_partitions Sample.with_old_versions)
    as (Hdel & _ & Hstatic & _).
  split.
  - apply Hdel. split; [left | split; [reflexivity | split; discriminate]].
  - rewrite Hstatic. reflexivity.
Defined.

(** C5, as the specification words it, fails: of the partitions
    [finance-static-v3.0.0], [finance-dynamic-v3.0.0] and [offline-data]
    the third is not a current one, and it is not deleted. *)
Lemma cleanup_not_as_specified : ¬ cleanup_as_specified Sample.three_partitions.
Proof.
  intros H. destruct (H "offline-data") as [_ Hdel].
  assert (Hin : "offline-data" ∈ deleted (activate Sample.three_partitions)).
  { apply Hdel. split; [| split; discriminate].
    apply list_elem_of_In. vm_compute. tauto. }
  apply list_elem_of_In in Hin. vm_compute in Hin. exact Hin.
Qed.

(** ** Install *)

Section InstallFacts.

Variable self_origin : string.
Variable network : string → option Response.

(** The fetch of one URL inside [addAll]. *)
Lemma addAll_fetch_is_Some (u : string) :
  is_Some (response ← network (absolute self_origin u);
           if ok response && negb (partial_content response)
           then Some (absolute self_origin u, response) else None)
  ↔ ∃ response, network (absolute self_origin u) = Some response ∧
                ok response = true ∧ partial_content response = false.
Proof.
  destruct (network (absolute self_origin u)) as [response |]; simpl.
  - destruct (ok response) eqn:E, (partial_content response) eqn:E'; simpl.
    + split; [intros [? [=]] | intros (r' & [= <-] & _ & Hp); congruence].
    + split; intros _; eauto.
    + split; [intros [? [=]] | intros (r' & [= <-] & Hok & _); congruence].
    + split; [intros [? [=]] | intros (r' & [= <-] & Hok & _); congruence].
  - split; [intros [? [=]] | intros (r' & [=] & _)].
Qed.

Lemma cache_addAll_fulfilled (name : string) (urls : list string) (cs : CacheStorage) :
  fst (cache_addAll self_origin network name urls cs) = Fulfilled () ↔
  ∀ u, u ∈ urls →
       ∃ response, network (absolute self_origin u) = Some response ∧
                   ok response = true ∧ partial_content response = false.
Proof.
  unfold cache_addAll.
  destruct (mapM _ urls) as [entries |] eqn:E; simpl.
  - split; [intros _ | reflexivity].
    assert (H : is_Some (mapM (λ u, response ← network (absolute self_origin u);
                          if ok response && negb (partial_content response)
                          then Some (absolute self_origin u, response)
                          else None) urls)) by (rewrite E; eauto).
    rewrite mapM_is_Some, Forall_forall in H.
    intros u Hu. apply addAll_fetch_is_Some, (H u Hu).
  - split; [discriminate |]. intros H. exfalso.
    assert (H' : is_Some (mapM (λ u, response ← network (absolute self_origin u);
                           if ok response && negb (partial_content response)
                           then Some (absolute self_origin u, response)
                           else None) urls)).
    { rewrite mapM_is_Some, Forall_forall. intros u Hu.
      apply addAll_fetch_is_Some, (H u Hu). }
    rewrite E in H'. destruct H' as [? [=]].
Qed.

Lemma cache_addAll_rejected (name : string) (urls : list string) (cs : CacheStorage) :
  fst (cache_addAll self_origin network name urls cs) ≠ Fulfilled () →
  cache_addAll self_origin network name urls cs = (Rejected "Request failed", cs).
Proof.
  unfold cache_addAll. destruct (mapM _ urls); simpl; [congruence | reflexivity].
Qed.

(** The external resources go to the dynamic partition and leave every
    other partition alone. *)
Lemma cdn_resources_elsewhere (name : string) (urls : list string) (cs : CacheStorage) :
  name ≠ DYNAMIC_CACHE_NAME →
  caches_find name (foldl (cache_cdn_resource self_origin network) cs urls)
  = caches_find name cs.
Proof.
  intros Hne. revert cs. induction urls as [| u urls IH]; intros cs; simpl; [reflexivity |].
  rewrite IH. unfold cache_cdn_resource.
  destruct (network (absolute self_origin u)) as [response |]; [| reflexivity].
  destruct (ok response); [| reflexivity].
  destruct (partial_content response); [reflexivity |].
  apply caches_find_put_ne. congruence.
Qed.

End InstallFacts.

(** C6, as the code has it.  An install run completes, and concludes by
    calling [skipWaiting], exactly when each of the three local static
    assets is fetched with an [ok] response that is not partial; the
    fetches of the external resources play no part in that.  When the fetch
    of a local static asset fails, or answers with a response that is not
    [ok] or is partial, the install promise rejects, [skipWaiting] is not
    called, and the static partition holds what it held before. *)
Theorem install_needs_every_local_asset
    (self_origin : string) (network : string → option Response) (cs : CacheStorage) :
  let i := install self_origin network cs in
  let fetched_ok :=
    ∀ u, u ∈ ["/"; "/index.html"; "/manifest.json"] →
         ∃ response, network (absolute self_origin u) = Some response ∧
                     ok response = true ∧ partial_content response = false in
  (skipWaiting_called i = true ↔ fetched_ok) ∧
  (installation i = Fulfilled () ↔ fetched_ok) ∧
  (¬ fetched_ok →
     (∃ e, installation i = Rejected e) ∧ skipWaiting_called i = false ∧
     ∀ key, cache_match STATIC_CACHE_NAME key (installed_store i)
            = cache_match STATIC_CACHE_NAME key cs).
Proof.
  intros i fetched_ok. subst i. unfold install.
  pose proof (cache_addAll_fulfilled self_origin network STATIC_CACHE_NAME
                (slice 0 3 STATIC_FILES)
                (caches_open DYNAMIC_CACHE_NAME (caches_open STATIC_CACHE_NAME cs))) as Hiff.
  change (slice 0 3 STATIC_FILES) with ["/"; "/index.html"; "/manifest.json"] in *.
  fold fetched_ok in Hiff.
  destruct (fst (cache_addAll self_origin network STATIC_CACHE_NAME
                   ["/"; "/index.html"; "/manifest.json"]
                   (caches_open DYNAMIC_CACHE_NAME (caches_open STATIC_CACHE_NAME cs))))
    as [[] | e] eqn:E; cbn [installation skipWaiting_called installed_store].
  - split; [| split]; tauto.
  - assert (Hno : ¬ fetched_ok) by (intros H; apply Hiff in H; discriminate H).
    split; [| split].
    + split; [discriminate | tauto].
    + split; [discriminate | tauto].
    + intros _. split; [eauto |]. split; [reflexivity |]. intros key.
      rewrite cache_addAll_rejected by (rewrite E; discriminate).
      cbn [snd]. unfold cache_match. rewrite cdn_resources_elsewhere by discriminate.
      rewrite caches_find_open_ne by discriminate.
      fold (cache_match STATIC_CACHE_NAME key (caches_open STATIC_CACHE_NAME cs)).
      fold (cache_match STATIC_CACHE_NAME key cs).
      apply cache_match_open.
Qed.

Lemma install_needs_every_local_asset_witness :
  skipWaiting_called (install Sample.app Sample.cdn_down Sample.installed) = true.
Proof.
  apply (install_needs_every_local_asset Sample.app Sample.cdn_down Sample.installed).
  intros u Hu. exists Sample.fresh.
  repeat (apply elem_of_cons in Hu; destruct Hu as [-> | Hu]; [repeat split |]).
  inversion Hu.
Defined.

(** C6, as the specification words it, fails: when the fetch of
    [/index.html] fails, install rejects and does not call [skipWaiting]. *)
Lemma install_not_as_specified :
  ¬ install_as_specified Sample.app Sample.page_unreachable Sample.installed.
Proof.
  intros [_ H]. vm_compute in H. discriminate H.
Qed.

(** ** The guards of the fetch handler *)

Lemma append_String (a : Ascii.ascii) (s t : string) :
  String a s ++ t = String a (s ++ t).
Proof. reflexivity. Qed.

Lemma append_empty (t : string) : "" ++ t = t.
Proof. reflexivity. Qed.

Ltac step_prefix :=
  repeat (rewrite append_String || rewrite append_empty); cbn [String.prefix].

(** A URL begins with [http] only if its scheme does: the two slashes that
    follow the scheme are none of those letters. *)
Lemma startsWith_http_protocol (u : URL) :
  startsWith (href u) "http" = true → startsWith (protocol u) "http" = true.
Proof.
  unfold href, startsWith. generalize (host u ++ pathname u). intros p.
  destruct (protocol u) as [| a1 [| a2 [| a3 [| a4 s]]]];
    step_prefix;
    repeat (match goal with
            | |- context [Ascii.ascii_dec ?x ?y] => destruct (Ascii.ascii_dec x y)
            end; step_prefix);
    try congruence.
  intros _. destruct s; reflexivity.
Qed.

(** The guard of the handler, as written: a request that is not GET, or
    whose URL does not begin with the four letters [http], is left to the
    platform. *)
Lemma fetch_handler_skips
    (self_origin : string) (network : string → option Response)
    (r : Request) (cs : CacheStorage) :
  method r ≠ "GET" ∨ startsWith (url r) "http" = false →
  fetch_handler self_origin network r cs = pass_through cs.
Proof.
  unfold fetch_handler. intros [Hm | Hu].
  - apply eqb_false in Hm. now rewrite Hm.
  - rewrite Hu. simpl. now destruct (negb (String.eqb (method r) "GET")).
Qed.

(** C7.  For every request handed to the worker that is not GET or not of
    scheme http or https, the handler does not call [respondWith], issues
    no fetch and leaves every partition as it was; a GET request of scheme
    http or https is intercepted. *)
Theorem fetch_handler_passes_through
    (self_origin : string) (network : string → option Response)
    (r : Request) (cs : CacheStorage) :
  dispatched r →
  let h := fetch_handler self_origin network r cs in
  (method r ≠ "GET" ∨ ¬ http_scheme r →
     h = pass_through cs ∧
     respondWith h = None ∧ network_calls h = [] ∧ caches_after h = cs) ∧
  (method r = "GET" → http_scheme r → respondWith h ≠ None).
Proof.
  intros Hd h. split.
  - intros Hout.
    assert (Hskip : h = pass_through cs).
    { subst h. apply fetch_handler_skips. destruct Hout as [Hm | Hs]; [now left |].
      right. destruct Hd as [Hd | Hd]; [contradiction |].
      destruct (startsWith (url r) "http") eqn:E; [| reflexivity].
      apply startsWith_http_protocol in E. congruence. }
    rewrite Hskip. auto.
  - intros Hm Hs. subst h. unfold fetch_handler.
    rewrite Hm, (http_scheme_startsWith r Hs). simpl.
    destruct (String.eqb (origin (target r)) self_origin); [discriminate |].
    destruct (isCDNResource (target r)); discriminate.
Qed.

Lemma fetch_handler_passes_through_witness :
  fetch_handler Sample.app Sample.online Sample.post_request Sample.with_page
  = pass_through Sample.with_page ∧
  fetch_handler Sample.app Sample.online Sample.extension_request Sample.with_page
  = pass_through Sample.with_page.
Proof.
  split.
  - destruct (fetch_handler_passes_through Sample.app Sample.online Sample.post_request
                Sample.with_page) as ((H & _) & _).
    + left. right. reflexivity.
    + left. discriminate.
    + exact H.
  - destruct (fetch_handler_passes_through Sample.app Sample.online
                Sample.extension_request Sample.with_page) as ((H & _) & _).
    + right. reflexivity.
    + right. intros [E | E]; discriminate E.
    + exact H.
Defined.

(** ** Background sync *)

Lemma process_each_fulfilled (process : Transaction → Promise unit)
    (pending : list Transaction) :
  snd (process_each process pending) = Fulfilled () →
  fst (process_each process pending) = pending.
Proof.
  induction pending as [| t rest IH]; simpl; [reflexivity |].
  destruct (process t) as [[] | e]; simpl; [| discriminate].
  intros H. now rewrite (IH H).
Qed.

(** C8, as the code has it.  For every synchronization run that completes
    after retrieving at least one pending record, every record has been
    handed to the processor, in order, and the message [SYNC_COMPLETE] with
    [count] the number of records retrieved is posted to every client; a
    run that retrieves no record posts nothing, and the source's own
    [getPendingTransactions] retrieves none. *)
Theorem sync_broadcasts_when_records_pending
    (pending : list Transaction) (process : Transaction → Promise unit)
    (clients : list string) :
  let run := syncTransactions_with (Fulfilled pending) process clients in
  sync_error run = None →
  processed run = pending ∧
  (pending ≠ [] →
     posted run = map (λ client, (client, sync_complete (length pending))) clients) ∧
  (pending = [] → posted run = []) ∧
  posted (syncTransactions clients) = [] ∧
  sync_error (syncTransactions clients) = None.
Proof.
  intros run Herr. subst run. unfold syncTransactions_with in *.
  destruct pending as [| t rest].
  - simpl. repeat split; try reflexivity. congruence.
  - change (0 <? length (t :: rest))%nat with true in *. cbv iota in *.
    destruct (snd (process_each process (t :: rest))) as [[] | e] eqn:E;
      simpl in Herr; [| discriminate].
    cbn [processed posted].
    repeat split; try reflexivity.
    + now apply process_each_fulfilled.
    + discriminate.
Qed.

Lemma sync_broadcasts_when_records_pending_witness :
  posted (syncTransactions_with (Fulfilled Sample.two_pending) processTransaction
            ["window-1"; "window-2"])
  = [("window-1", sync_complete 2); ("window-2", sync_complete 2)].
Proof.
  destruct (sync_broadcasts_when_records_pending
              Sample.two_pending processTransaction ["window-1"; "window-2"] eq_refl)
    as (_ & H & _).
  apply H. discriminate.
Defined.

(** C8, as the specification words it, fails: the run on the source's own
    [getPendingTransactions] completes and posts no message to the one
    client there is. *)
Lemma sync_not_as_specified :
  ¬ sync_as_specified getPendingTransactions processTransaction ["window-1"].
Proof.
  intros H. specialize (H [] eq_refl eq_refl). vm_compute in H. discriminate H.
Qed.

(** ** The cache status *)

Section StatusFacts.

Implicit Types (cs : CacheStorage) (name key : string) (resp : Response).

Lemma caches_find_None name cs : caches_find name cs = None ↔ name ∉ caches_keys cs.
Proof.
  induction cs as [| [n c] cs IH]; simpl.
  - split; [intros _ H; inversion H | reflexivity].
  - rewrite not_elem_of_cons. destruct (String.eqb n name) eqn:E.
    + apply eqb_true in E. split; [discriminate | intros [H _]; congruence].
    + apply eqb_false in E. rewrite IH. split; [intros H; split; congruence | tauto].
Qed.

Lemma caches_find_is_Some name cs : name ∈ caches_keys cs → is_Some (caches_find name cs).
Proof.
  intros Hin. destruct (caches_find name cs) eqn:E; [eauto |].
  apply caches_find_None in E. contradiction.
Qed.

Lemma caches_keys_put name key resp cs :
  caches_keys (cache_put name key resp cs) = caches_keys cs.
Proof.
  induction cs as [| [n c] cs IH]; simpl; [reflexivity |].
  destruct (String.eqb n name); simpl; [reflexivity | now rewrite IH].
Qed.

Lemma caches_keys_open name cs :
  caches_keys (caches_open name cs)
  = match caches_find name cs with
    | Some _ => caches_keys cs
    | None => (caches_keys cs ++ [name])%list
    end.
Proof.
  unfold caches_open, caches_keys. destruct (caches_find name cs); [reflexivity |].
  now rewrite map_app.
Qed.

Lemma total_entries_app cs cs' :
  total_entries (cs ++ cs')%list = total_entries cs + total_entries cs'.
Proof.
  unfold total_entries. induction cs as [| p cs IH]; simpl; [reflexivity | lia].
Qed.

Lemma total_entries_open name cs : total_entries (caches_open name cs) = total_entries cs.
Proof.
  unfold caches_open. destruct (caches_find name cs); [reflexivity |].
  rewrite total_entries_app. unfold total_entries at 2. simpl.
  rewrite map_size_empty. lia.
Qed.

(** A fresh key makes its cache, and so the storage, one entry larger. *)
Lemma total_entries_put_fresh name key resp cs c :
  caches_find name cs = Some c → c !! key = None →
  total_entries (cache_put name key resp cs) = S (total_entries cs).
Proof.
  intros Hfind Hfresh. induction cs as [| [n d] cs IH]; simpl in *; [discriminate |].
  destruct (String.eqb n name).
  - injection Hfind as ->. unfold total_entries. simpl.
    now rewrite map_size_insert_None.
  - unfold total_entries in *. simpl. rewrite (IH Hfind). lia.
Qed.

Lemma cache_match_write name key cs (e : string * string * Response) :
  cache_match name key (write cs e)
  = if decide ((name, key) = fst e) then Some (snd e) else cache_match name key cs.
Proof.
  destruct e as [[n k] v]. unfold write, cache_match. simpl.
  destruct (decide (n = name)) as [-> | Hn].
  - rewrite caches_find_put, caches_find_open. simpl.
    destruct (decide (k = key)) as [-> | Hk].
    + rewrite lookup_insert_eq. now rewrite decide_True.
    + rewrite lookup_insert_ne by exact Hk. rewrite decide_False by congruence.
      destruct (caches_find name cs); simpl; [reflexivity | apply lookup_empty].
  - rewrite caches_find_put_ne, caches_find_open_ne by exact Hn.
    now rewrite decide_False by congruence.
Qed.

Lemma total_entries_write cs (e : string * string * Response) :
  cache_match (fst (fst e)) (snd (fst e)) cs = None →
  total_entries (write cs e) = S (total_entries cs).
Proof.
  destruct e as [[n k] v]. simpl. intros Hfresh. unfold write. simpl.
  rewrite <- (total_entries_open n cs).
  apply total_entries_put_fresh with (default ∅ (caches_find n cs)).
  - apply caches_find_open.
  - unfold cache_match in Hfresh.
    destruct (caches_find n cs); simpl in *; [exact Hfresh | apply lookup_empty].
Qed.

(** Writing entries of distinct identity, none of them held yet, adds as
    many entries as are written. *)
Lemma total_entries_writes (entries : list (string * string * Response)) cs :
  NoDup (map fst entries) →
  (∀ e, e ∈ entries → cache_match (fst (fst e)) (snd (fst e)) cs = None) →
  total_entries (foldl write cs entries) = total_entries cs + length entries.
Proof.
  revert cs. induction entries as [| e entries IH]; intros cs Hnd Hfresh; simpl.
  - lia.
  - apply NoDup_cons in Hnd as [Hnot Hnd].
    rewrite IH; [rewrite total_entries_write; [lia |] | exact Hnd |].
    + apply Hfresh. left.
    + intros e' He'. rewrite cache_match_write.
      destruct (decide ((fst (fst e'), snd (fst e')) = fst e)) as [Heq | _].
      * exfalso. apply Hnot. rewrite <- Heq.
        apply list_elem_of_In, in_map_iff. exists e'.
        split; [now destruct e' as [[? ?] ?] | now apply list_elem_of_In].
      * apply Hfresh. now right.
Qed.

Lemma caches_keys_write_NoDup cs (e : string * string * Response) :
  NoDup (caches_keys cs) → NoDup (caches_keys (write cs e)).
Proof.
  intros Hnd. unfold write. rewrite caches_keys_put, caches_keys_open.
  destruct (caches_find (fst (fst e)) cs) eqn:E; [exact Hnd |].
  apply caches_find_None in E. apply NoDup_app. split; [exact Hnd |]. split.
  - intros x Hx [-> | H]%elem_of_cons; [contradiction | inversion H].
  - apply NoDup_singleton.
Qed.

Lemma caches_keys_writes_NoDup (entries : list (string * string * Response)) cs :
  NoDup (caches_keys cs) → NoDup (caches_keys (foldl write cs entries)).
Proof.
  revert cs. induction entries as [| e entries IH]; intros cs Hnd; simpl; [exact Hnd |].
  apply IH, caches_keys_write_NoDup, Hnd.
Qed.

Lemma cache_keys_length name cs c :
  caches_find name cs = Some c → length (cache_keys name cs) = size c.
Proof.
  intros H. unfold cache_keys. rewrite H, length_map. apply length_map_to_list.
Qed.

Lemma counted_cons_other (names : list string) n c cs :
  n ∉ names → counted names ((n, c) :: cs) = counted names cs.
Proof.
  induction names as [| m names IH]; simpl; [reflexivity |].
  intros [Hne Hnot]%not_elem_of_cons. rewrite (IH Hnot). f_equal. f_equal.
  unfold cache_keys. simpl.
  assert (E : String.eqb n m = false) by (apply eqb_false; congruence).
  now rewrite E.
Qed.

(** With one cache per name the loop counts every entry once. *)
Lemma counted_total cs :
  NoDup (caches_keys cs) → counted (caches_keys cs) cs = total_entries cs.
Proof.
  induction cs as [| [n c] cs IH]; simpl; [reflexivity |].
  intros [Hnot Hnd]%NoDup_cons.
  rewrite (counted_cons_other _ n c cs Hnot), (IH Hnd).
  unfold total_entries at 2. simpl. fold (total_entries cs). f_equal.
  apply cache_keys_length. simpl. now rewrite eqb_same.
Qed.

Lemma count_entries_spec (fails : StorageOp → option string) (names : list string)
    (size : nat) cs :
  (∀ name, name ∈ names → name ∈ caches_keys cs) →
  count_entries fails names size cs
  = (match first_fault fails (flat_map (λ name, [OpOpen name; OpCacheKeys name]) names) with
     | Some e => Rejected e
     | None => Fulfilled (size + counted names cs)
     end, cs).
Proof.
  revert size. induction names as [| n names IH]; intros size Hin; simpl.
  - f_equal. f_equal. lia.
  - destruct (fails (OpOpen n)) as [e |]; [reflexivity |].
    destruct (caches_find_is_Some n cs (Hin n ltac:(left))) as [c Hc].
    rewrite (caches_open_existing n cs c Hc).
    destruct (fails (OpCacheKeys n)) as [e |]; [reflexivity |].
    rewrite IH by (intros m Hm; apply Hin; now right).
    destruct (first_fault fails _); [reflexivity |]. f_equal. f_equal. lia.
Qed.

(** [getCacheStatus] against the storage operations in program order. *)
Lemma getCacheStatus_spec (now : string) (st : Storage) :
  NoDup (caches_keys (contents st)) →
  getCacheStatus now st
  = (match first_fault (fault st) (status_ops (contents st)) with
     | Some e => ErrorData e
     | None => StatusData (length (contents st)) (total_entries (contents st)) now
     end, contents st).
Proof.
  intros Hnd. unfold getCacheStatus, status_ops. simpl.
  destruct (fault st OpKeys) as [e |]; [reflexivity |].
  rewrite count_entries_spec by auto. simpl.
  destruct (first_fault (fault st) _); [reflexivity |].
  rewrite (counted_total _ Hnd). unfold caches_keys. now rewrite length_map.
Qed.

End StatusFacts.

Lemma first_fault_healthy (cs : CacheStorage) (ops : list StorageOp) :
  first_fault (fault (healthy cs)) ops = None.
Proof. induction ops as [| op ops IH]; simpl; [reflexivity | exact IH]. Qed.

(** C9.  A [GET_CACHE_STATUS] message with a reply port is answered on that
    port with one [CACHE_STATUS] message.  On a storage that works its data
    has [caches] the number of partitions and [size] the number of entries
    of all partitions together: 0 and 0 on the empty storage, and [size] N
    once N entries of distinct identity (partition and key) have been
    written to it.  When a storage operation of the run rejects, the data is
    [{error: message}] with the message of the first one that does, and no
    rejection is left unhandled. *)
Theorem get_cache_status_replies
    (resolve : string → option string) (now port0 : string) (more : list string)
    (payload : option TransactionData) :
  let event := {| message_type := "GET_CACHE_STATUS"; message_data := payload;
                  ports := port0 :: more |} in
  let reply st := replies (message_handler resolve now event st) in
  let status d := [(port0, {| type := "CACHE_STATUS"; data := d |})] in
  (∀ cs, NoDup (caches_keys cs) →
     reply (healthy cs) = status (StatusData (length cs) (total_entries cs) now) ∧
     message_store (message_handler resolve now event (healthy cs)) = cs) ∧
  reply (healthy []) = status (StatusData 0 0 now) ∧
  (∀ entries : list (string * string * Response), NoDup (map fst entries) →
     reply (healthy (foldl write [] entries))
     = status (StatusData (length (foldl write [] entries)) (length entries) now)) ∧
  (∀ st, NoDup (caches_keys (contents st)) →
     unhandled_rejection (message_handler resolve now event st) = None ∧
     reply st
     = status (match first_fault (fault st) (status_ops (contents st)) with
               | Some e => ErrorData e
               | None => StatusData (length (contents st)) (total_entries (contents st)) now
               end)) ∧
  (∀ st e, NoDup (caches_keys (contents st)) → fault st OpKeys = Some e →
     reply st = status (ErrorData e)).
Proof.
  intros event reply status.
  assert (Hany : ∀ st, NoDup (caches_keys (contents st)) →
            unhandled_rejection (message_handler resolve now event st) = None ∧
            message_store (message_handler resolve now event st) = contents st ∧
            reply st
            = status (match first_fault (fault st) (status_ops (contents st)) with
                      | Some e => ErrorData e
                      | None => StatusData (length (contents st))
                                  (total_entries (contents st)) now
                      end)).
  { intros st Hnd. subst reply status event. unfold message_handler. simpl.
    rewrite (getCacheStatus_spec now st Hnd). simpl. auto. }
  assert (Hhealthy : ∀ cs, NoDup (caches_keys cs) →
            reply (healthy cs) = status (StatusData (length cs) (total_entries cs) now) ∧
            message_store (message_handler resolve now event (healthy cs)) = cs).
  { intros cs Hnd. destruct (Hany (healthy cs) Hnd) as (_ & Hstore & Hreply).
    split; [| exact Hstore]. rewrite Hreply, first_fault_healthy. reflexivity. }
  split; [exact Hhealthy |]. split; [| split; [| split]].
  - apply (Hhealthy []). constructor.
  - intros entries Hnd.
    destruct (Hhealthy (foldl write [] entries)) as [Hreply _].
    { apply caches_keys_writes_NoDup. constructor. }
    rewrite Hreply. rewrite total_entries_writes; [reflexivity | exact Hnd |].
    intros e _. reflexivity.
  - intros st Hnd. destruct (Hany st Hnd) as (Hun & _ & Hreply). auto.
  - intros st e Hnd He. destruct (Hany st Hnd) as (_ & _ & Hreply).
    rewrite Hreply. unfold status_ops. simpl. now rewrite He.
Qed.

Lemma get_cache_status_replies_witness :
  replies (message_handler Sample.at_root "2024-01-01T00:00:00.000Z" Sample.status_request
             Sample.broken)
  = [("port-1", {| type := "CACHE_STATUS";
                   data := ErrorData "The operation is insecure." |})] ∧
  replies (message_handler Sample.at_root "2024-01-01T00:00:00.000Z" Sample.status_request
             (healthy (foldl write [] Sample.three_entries)))
  = [("port-1", {| type := "CACHE_STATUS";
                   data := StatusData 2 3 "2024-01-01T00:00:00.000Z" |})].
Proof.
  destruct (get_cache_status_replies Sample.at_root "2024-01-01T00:00:00.000Z" "port-1" [] None)
    as (_ & _ & Hwrites & _ & Hfault).
  split.
  - apply (Hfault Sample.broken "The operation is insecure.");
      [apply (bool_decide_unpack _); vm_compute; exact I | reflexivity].
  - apply (Hwrites Sample.three_entries).
    apply (bool_decide_unpack _). vm_compute. exact I.
Defined.

(** * Further properties of the worker *)

(** ** What a fetch event can do to the storage *)

Lemma cache_match_open_any (name n key : string) (cs : CacheStorage) :
  cache_match name key (caches_open n cs) = cache_match name key cs.
Proof.
  destruct (decide (n = name)) as [-> | Hne]; [apply cache_match_open |].
  unfold cache_match. now rewrite caches_find_open_ne.
Qed.

Lemma cache_put_request_write (name : string) (r : Request) (resp : Response)
    (cs : CacheStorage) :
  cache_put_request name r resp (caches_open name cs)
  = if String.eqb (method r) "GET" && negb (partial_content resp)
    then write cs (name, cache_url r, resp)
    else caches_open name cs.
Proof.
  unfold cache_put_request, request_key, write.
  destruct (String.eqb (method r) "GET"), (partial_content resp); reflexivity.
Qed.

(** The storage a fetch event leaves behind is the one it found, or that one
    with a current partition opened, or with an [ok] response of the network
    written under the URL of the request. *)
Lemma fetch_handler_store_shape (self_origin : string) (network : string → option Response)
    (r : Request) (cs : CacheStorage) :
  let s := caches_after (fetch_handler self_origin network r cs) in
  s = cs ∨
  (∃ n, (n = STATIC_CACHE_NAME ∨ n = DYNAMIC_CACHE_NAME) ∧ s = caches_open n cs) ∨
  (∃ n resp, (n = STATIC_CACHE_NAME ∨ n = DYNAMIC_CACHE_NAME) ∧
             network (url r) = Some resp ∧ ok resp = true ∧
             partial_content resp = false ∧
             s = write cs (n, cache_url r, resp)).
Proof.
  unfold fetch_handler.
  destruct (negb (String.eqb (method r) "GET")); [now left |].
  destruct (negb (startsWith (url r) "http")); [now left |].
  destruct (String.eqb (origin (target r)) self_origin);
    [| destruct (isCDNResource (target r))]; simpl.
  - unfold cacheFirstStrategy.
    destruct (caches_match_request r cs); [now left |].
    destruct (network (url r)) as [resp |] eqn:Hn; [| now left]. simpl.
    destruct (ok resp) eqn:Hok; [| now left].
    rewrite cache_put_request_write.
    destruct (String.eqb (method r) "GET"), (partial_content resp) eqn:Hp; simpl;
      right; [left | right | left | left]; eauto 10.
  - unfold staleWhileRevalidateStrategy.
    assert (Hs : ∀ stale : option Response,
              snd (match network (url r) with
                   | Some networkResponse =>
                       (Fulfilled (Some networkResponse),
                        if ok networkResponse
                        then cache_put_request DYNAMIC_CACHE_NAME r networkResponse
                               (caches_open DYNAMIC_CACHE_NAME cs)
                        else caches_open DYNAMIC_CACHE_NAME cs)
                   | None => (Fulfilled stale, caches_open DYNAMIC_CACHE_NAME cs)
                   end)
              = match network (url r) with
                | Some networkResponse =>
                    if ok networkResponse
                    then cache_put_request DYNAMIC_CACHE_NAME r networkResponse
                           (caches_open DYNAMIC_CACHE_NAME cs)
                    else caches_open DYNAMIC_CACHE_NAME cs
                | None => caches_open DYNAMIC_CACHE_NAME cs
                end).
    { intros stale. now destruct (network (url r)). }
    destruct (cache_match_request DYNAMIC_CACHE_NAME r (caches_open DYNAMIC_CACHE_NAME cs));
      simpl; rewrite Hs;
      (destruct (network (url r)) as [resp |] eqn:Hn; [| right; left; eauto];
       destruct (ok resp) eqn:Hok; [| right; left; eauto];
       rewrite cache_put_request_write;
       destruct (String.eqb (method r) "GET"), (partial_content resp) eqn:Hp; simpl;
       right; [left | right | left | left]; eauto 10).
  - unfold networkFirstStrategy.
    destruct (network (url r)) as [resp |] eqn:Hn; [| now left]. simpl.
    destruct (ok resp) eqn:Hok; [| now left].
    rewrite cache_put_request_write.
    destruct (String.eqb (method r) "GET"), (partial_content resp) eqn:Hp; simpl;
      right; [left | right | left | left]; eauto 10.
Qed.

(** X1.  A fetch event never touches the entry of another URL.  Whatever the
    request and the network, every lookup under a key other than the URL of
    the request without its fragment gives afterwards what it gave before,
    in every partition. *)
Theorem fetch_leaves_other_urls
    (self_origin : string) (network : string → option Response)
    (r : Request) (cs : CacheStorage) (name key : string) :
  key ≠ cache_url r →
  cache_match name key (caches_after (fetch_handler self_origin network r cs))
  = cache_match name key cs.
Proof.
  intros Hkey.
  destruct (fetch_handler_store_shape self_origin network r cs)
    as [-> | [(n & _ & ->) | (n & resp & _ & _ & _ & _ & ->)]].
  - reflexivity.
  - apply cache_match_open_any.
  - rewrite cache_match_write. simpl. apply decide_False. congruence.
Qed.

Lemma fetch_leaves_other_urls_witness :
  cache_match STATIC_CACHE_NAME (cache_url Sample.page_request)
    (caches_after (fetch_handler Sample.app Scenario.redeployed Scenario.image_request
                     Sample.with_page))
  = Some Sample.stale.
Proof.
  rewrite (fetch_leaves_other_urls Sample.app Scenario.redeployed Scenario.image_request
             Sample.with_page STATIC_CACHE_NAME (cache_url Sample.page_request));
    [reflexivity | discriminate].
Defined.

(** X2.  A failed fetch caches nothing.  When the network fails for the
    request, or answers with a response that is not [ok], every lookup in
    every partition gives afterwards what it gave before, and the number of
    entries is the same. *)
Theorem failed_fetch_caches_nothing
    (self_origin : string) (network : string → option Response)
    (r : Request) (cs : CacheStorage) :
  (network (url r) = None ∨ ∃ resp, network (url r) = Some resp ∧ ok resp = false) →
  let s := caches_after (fetch_handler self_origin network r cs) in
  (∀ name key, cache_match name key s = cache_match name key cs) ∧
  total_entries s = total_entries cs.
Proof.
  intros Hfail s. subst s.
  destruct (fetch_handler_store_shape self_origin network r cs)
    as [-> | [(n & _ & ->) | (n & resp & _ & Hn & Hok & _ & _)]].
  - auto.
  - split; [intros; apply cache_match_open_any | apply total_entries_open].
  - exfalso. destruct Hfail as [H | (resp' & H & Hno)]; congruence.
Qed.

Lemma failed_fetch_caches_nothing_witness :
  total_entries
    (caches_after (fetch_handler Sample.app Scenario.not_found Scenario.image_request
                     Sample.with_page))
  = 1.
Proof.
  destruct (failed_fetch_caches_nothing Sample.app Scenario.not_found
              Scenario.image_request Sample.with_page) as [_ H].
  - right. exists Sample.missing. split; reflexivity.
  - rewrite H. vm_compute. reflexivity.
Defined.

(** X3.  A fetch event never deletes.  The partitions it leaves are the ones
    it found, in the same order, with at most one current partition added
    at the end, and every key that was held by a partition still is. *)
Theorem fetch_never_deletes
    (self_origin : string) (network : string → option Response)
    (r : Request) (cs : CacheStorage) :
  let s := caches_after (fetch_handler self_origin network r cs) in
  (∃ added, caches_keys s = (caches_keys cs ++ added)%list ∧
            (added = [] ∨ added = [STATIC_CACHE_NAME] ∨ added = [DYNAMIC_CACHE_NAME])) ∧
  (∀ name key, is_Some (cache_match name key cs) → is_Some (cache_match name key s)).
Proof.
  intros s. subst s.
  assert (Hopen : ∀ n, (n = STATIC_CACHE_NAME ∨ n = DYNAMIC_CACHE_NAME) →
            ∃ added, caches_keys (caches_open n cs) = (caches_keys cs ++ added)%list ∧
              (added = [] ∨ added = [STATIC_CACHE_NAME] ∨ added = [DYNAMIC_CACHE_NAME])).
  { intros n Hn. rewrite caches_keys_open. destruct (caches_find n cs).
    - exists []. split; [now rewrite app_nil_r | now left].
    - exists [n]. split; [reflexivity |]. right. destruct Hn as [-> | ->]; auto. }
  destruct (fetch_handler_store_shape self_origin network r cs)
    as [-> | [(n & Hn & ->) | (n & resp & Hn & _ & _ & _ & ->)]].
  - split; [| auto]. exists []. split; [now rewrite app_nil_r | now left].
  - split; [now apply Hopen |]. intros name key H. now rewrite cache_match_open_any.
  - split.
    + unfold write. simpl. rewrite caches_keys_put. now apply Hopen.
    + intros name key H. rewrite cache_match_write. simpl.
      destruct (decide ((name, key) = (n, cache_url r))); [eauto | exact H].
Qed.

(** ** The strategies over several requests *)

(** Where no other partition holds the key, what was written is what
    [caches.match] answers. *)
Lemma caches_match_put_sole (n key : string) (v : Response) (cs : CacheStorage) :
  (∀ name c, (name, c) ∈ cs → name ≠ n → c !! key = None) →
  is_Some (caches_find n cs) →
  caches_match key (cache_put n key v cs) = Some v.
Proof.
  induction cs as [| [m c] cs IH]; simpl; intros Hsole [d Hd]; [discriminate |].
  destruct (String.eqb m n) eqn:E; simpl.
  - now rewrite lookup_insert_eq.
  - apply eqb_false in E. rewrite (Hsole m c); [| left | exact E].
    apply IH; [| eauto]. intros name c' Hin. apply Hsole. now right.
Qed.

Lemma caches_match_write_sole (n key : string) (v : Response) (cs : CacheStorage) :
  (∀ name c, (name, c) ∈ cs → name ≠ n → c !! key = None) →
  caches_match key (write cs (n, key, v)) = Some v.
Proof.
  intros Hsole. unfold write. simpl. apply caches_match_put_sole.
  - intros name c Hin Hne. unfold caches_open in Hin.
    destruct (caches_find n cs); [now apply (Hsole name c) |].
    apply elem_of_app in Hin as [Hin | Hin]; [now apply (Hsole name c) |].
    apply list_elem_of_singleton in Hin. congruence.
  - rewrite caches_find_open. eauto.
Qed.

(** X4.  Network-first with the network up: for every GET request the
    response of the network is the answer, after one fetch; if it is [ok]
    and not partial the dynamic partition then holds it under the URL of
    the request without its fragment, and if it is not [ok] the storage is
    left as it was. *)
Theorem network_first_online
    (network : string → option Response) (r : Request) (cs : CacheStorage)
    (resp : Response) :
  method r = "GET" → network (url r) = Some resp →
  let o := networkFirstStrategy network r cs in
  answer o = Fulfilled (Some resp) ∧ timing o = AfterNetwork ∧ fetched o = [url r] ∧
  (ok resp = true → partial_content resp = false →
   cache_match DYNAMIC_CACHE_NAME (cache_url r) (store o) = Some resp) ∧
  (ok resp = false → store o = cs).
Proof.
  intros Hm Hn o. subst o. unfold networkFirstStrategy. rewrite Hn. simpl.
  repeat split.
  - intros Hok Hfull. rewrite Hok, cache_put_request_write, Hm, Hfull. simpl.
    rewrite cache_match_write. simpl. now apply decide_True.
  - intros Hok. now rewrite Hok.
Qed.

Lemma network_first_online_witness :
  cache_match DYNAMIC_CACHE_NAME (cache_url Sample.api_request)
    (store (networkFirstStrategy Sample.online Sample.api_request Sample.installed))
  = Some Sample.fresh.
Proof.
  destruct (network_first_online Sample.online Sample.api_request Sample.installed
              Sample.fresh eq_refl eq_refl) as (_ & _ & _ & H & _).
  apply H; reflexivity.
Defined.

(** X5.  Network-first remembers: when a GET request was answered by the
    network with an [ok] response that is not partial and no partition
    other than the dynamic one holds an entry for it, the same request,
    made when the network fails, is answered with that response. *)
Theorem network_first_remembers
    (online offline : string → option Response) (r : Request) (cs : CacheStorage)
    (resp : Response) :
  method r = "GET" →
  online (url r) = Some resp → ok resp = true → partial_content resp = false →
  offline (url r) = None →
  (∀ name c, (name, c) ∈ cs → name ≠ DYNAMIC_CACHE_NAME → c !! cache_url r = None) →
  answer (networkFirstStrategy offline r (store (networkFirstStrategy online r cs)))
  = Fulfilled (Some resp).
Proof.
  intros Hm Hon Hok Hfull Hoff Hsole.
  rewrite (network_first_offline _ _ _ Hm Hoff). simpl.
  unfold networkFirstStrategy. rewrite Hon. simpl.
  rewrite Hok, cache_put_request_write, Hm, Hfull. simpl.
  now rewrite (caches_match_write_sole _ _ _ _ Hsole).
Qed.

Lemma network_first_remembers_witness :
  answer (networkFirstStrategy Sample.offline Sample.api_request
            (store (networkFirstStrategy Sample.online Sample.api_request
                      Sample.with_rates)))
  = Fulfilled (Some Sample.fresh).
Proof.
  apply (network_first_remembers Sample.online Sample.offline Sample.api_request
           Sample.with_rates Sample.fresh eq_refl eq_refl eq_refl eq_refl eq_refl).
  intros name c Hin Hne.
  apply elem_of_cons in Hin as [[= -> ->] | Hin]; [apply lookup_empty |].
  apply elem_of_cons in Hin as [[= -> ->] | Hin]; [congruence | inversion Hin].
Defined.

(** X6.  Cache-first never revalidates: once a GET request that no
    partition held was fetched with an [ok] response that is not partial,
    the same request is
    answered with that response at once, with no fetch and no change of the
    storage, whatever the network would answer by then. *)
Theorem cache_first_never_revalidates
    (self_origin : string) (first later : string → option Response)
    (r : Request) (cs : CacheStorage) (resp : Response) :
  method r = "GET" → caches_match (cache_url r) cs = None →
  first (url r) = Some resp → ok resp = true → partial_content resp = false →
  let cached := store (cacheFirstStrategy self_origin first r cs) in
  cacheFirstStrategy self_origin later r cached
  = {| answer := Fulfilled (Some resp); timing := Immediately; fetched := [];
       store := cached |}.
Proof.
  intros Hm Hmiss Hn Hok Hfull cached.
  assert (Hc : caches_match (cache_url r) cached = Some resp).
  { subst cached. unfold cacheFirstStrategy, caches_match_request.
    rewrite (request_key_GET r Hm). simpl. rewrite Hmiss, Hn. simpl.
    rewrite Hok, cache_put_request_write, Hm, Hfull. simpl.
    apply caches_match_write_sole. intros name c Hin _.
    rewrite caches_match_None in Hmiss. now apply (Hmiss name c). }
  unfold cacheFirstStrategy at 1, caches_match_request.
  rewrite (request_key_GET r Hm). simpl. now rewrite Hc.
Qed.

Lemma cache_first_never_revalidates_witness :
  answer (cacheFirstStrategy Sample.app Scenario.redeployed Scenario.image_request
            (store (cacheFirstStrategy Sample.app Sample.online Scenario.image_request
                      Sample.installed)))
  = Fulfilled (Some Sample.fresh).
Proof.
  rewrite (cache_first_never_revalidates Sample.app Sample.online Scenario.redeployed
             Scenario.image_request Sample.installed Sample.fresh
             eq_refl eq_refl eq_refl eq_refl eq_refl).
  reflexivity.
Defined.

(** X7.  Cache-first with the network down: for every GET request that no
    partition holds, after the one failed fetch the storage is as before
    and the answer is, for a request whose destination is [document], what
    [caches.match] finds under [/index.html] of the worker's origin (so
    [undefined], a network error for the page, when no partition holds
    that), and for every other request the synthesized 503 response. *)
Theorem cache_first_offline_fallback
    (self_origin : string) (network : string → option Response)
    (r : Request) (cs : CacheStorage) :
  method r = "GET" → caches_match (cache_url r) cs = None → network (url r) = None →
  let o := cacheFirstStrategy self_origin network r cs in
  store o = cs ∧ fetched o = [url r] ∧
  (destination r = "document" →
     answer o = Fulfilled (caches_match (self_origin ++ "/index.html") cs) ∧
     (caches_match (self_origin ++ "/index.html") cs = None →
      delivered (answer o) = NetworkError)) ∧
  (destination r ≠ "document" → answer o = Fulfilled (Some offline_response)).
Proof.
  intros Hm Hmiss Hn o. subst o. unfold cacheFirstStrategy, caches_match_request.
  change (absolute self_origin "/index.html") with (self_origin ++ "/index.html").
  rewrite (request_key_GET r Hm). cbn [mbind option_bind]. rewrite Hmiss, Hn.
  cbn [store fetched answer].
  split; [reflexivity |]. split; [reflexivity |]. split.
  - intros Hd. rewrite Hd. simpl.
    split; [reflexivity |]. intros H. now rewrite H.
  - intros Hd. apply eqb_false in Hd. now rewrite Hd.
Qed.

Lemma cache_first_offline_fallback_witness :
  answer (cacheFirstStrategy Sample.app Sample.offline Scenario.report_request
            Sample.with_page)
  = Fulfilled (Some Sample.stale) ∧
  answer (cacheFirstStrategy Sample.app Sample.offline Scenario.image_request
            Sample.with_page)
  = Fulfilled (Some offline_response).
Proof.
  split.
  - destruct (cache_first_offline_fallback Sample.app Sample.offline
                Scenario.report_request Sample.with_page eq_refl eq_refl eq_refl)
      as (_ & _ & H & _).
    destruct (H eq_refl) as [-> _]. vm_compute. reflexivity.
  - destruct (cache_first_offline_fallback Sample.app Sample.offline
                Scenario.image_request Sample.with_page eq_refl eq_refl eq_refl)
      as (_ & _ & _ & H).
    apply H. discriminate.
Defined.

(** X8.  Stale-while-revalidate fills the dynamic partition: once a GET
    request without an entry there was answered by the network with an
    [ok] response that is not partial, the same request is answered with
    that response at once, whatever the network does by then. *)
Theorem swr_miss_then_hit
    (first later : string → option Response) (r : Request) (cs : CacheStorage)
    (resp : Response) :
  method r = "GET" → cache_match DYNAMIC_CACHE_NAME (cache_url r) cs = None →
  first (url r) = Some resp → ok resp = true → partial_content resp = false →
  let cached := store (staleWhileRevalidateStrategy first r cs) in
  answer (staleWhileRevalidateStrategy first r cs) = Fulfilled (Some resp) ∧
  answer (staleWhileRevalidateStrategy later r cached) = Fulfilled (Some resp) ∧
  timing (staleWhileRevalidateStrategy later r cached) = Immediately.
Proof.
  intros Hm Hmiss Hn Hok Hfull cached.
  assert (Hfirst : staleWhileRevalidateStrategy first r cs
                   = {| answer := Fulfilled (Some resp); timing := AfterNetwork;
                        fetched := [url r];
                        store := write cs (DYNAMIC_CACHE_NAME, cache_url r, resp) |}).
  { unfold staleWhileRevalidateStrategy, cache_match_request.
    rewrite (request_key_GET r Hm). simpl.
    rewrite cache_match_open, Hmiss, Hn. simpl.
    now rewrite Hok, cache_put_request_write, Hm, Hfull. }
  assert (Hc : cache_match DYNAMIC_CACHE_NAME (cache_url r) cached = Some resp).
  { subst cached. rewrite Hfirst. simpl. rewrite cache_match_write. simpl.
    now apply decide_True. }
  rewrite (swr_hit later r cached resp Hm Hc), Hfirst. auto.
Qed.

Lemma swr_miss_then_hit_witness :
  answer (staleWhileRevalidateStrategy Sample.offline Sample.cdn_request
            (store (staleWhileRevalidateStrategy Sample.online Sample.cdn_request
                      Sample.installed)))
  = Fulfilled (Some Sample.fresh).
Proof.
  destruct (swr_miss_then_hit Sample.online Sample.offline Sample.cdn_request
              Sample.installed Sample.fresh eq_refl eq_refl eq_refl eq_refl eq_refl)
    as (_ & H & _).
  exact H.
Defined.

(** ** The allow-list of external hosts *)

Lemma prefix_empty (s : string) : String.prefix "" s = true.
Proof. destruct s; reflexivity. Qed.

Lemma prefix_String (a b : Ascii.ascii) (p s : string) :
  String.prefix (String a p) (String b s) = true ↔ a = b ∧ String.prefix p s = true.
Proof.
  cbn [String.prefix]. destruct (Ascii.ascii_dec a b) as [-> | Hne].
  - tauto.
  - split; [discriminate | tauto].
Qed.

(** [String.prefix p s] holds exactly when [s] begins with [p]. *)
Lemma prefix_iff (p s : string) : String.prefix p s = true ↔ ∃ post, s = p ++ post.
Proof.
  revert s. induction p as [| a p IH]; intros s.
  - rewrite prefix_empty. split; [intros _; now exists s | reflexivity].
  - destruct s as [| b s].
    + split; [discriminate | intros [post H]; rewrite append_String in H; discriminate H].
    + rewrite prefix_String, IH. split.
      * intros [-> [post ->]]. exists post. now rewrite append_String.
      * intros [post H]. rewrite append_String in H. injection H as -> ->. eauto.
Qed.

(** [includes s sub] holds exactly when [sub] occurs in [s]. *)
Lemma includes_iff (s sub : string) :
  includes s sub = true ↔ ∃ pre post, s = pre ++ sub ++ post.
Proof.
  induction s as [| a s IH]; cbn [includes]; rewrite orb_true_iff, prefix_iff.
  - split.
    + intros [[post H] | H]; [| discriminate]. exists "", post. now rewrite append_empty.
    + intros (pre & post & H). left. destruct pre as [| b pre].
      * rewrite append_empty in H. eauto.
      * rewrite append_String in H. discriminate H.
  - rewrite IH. split.
    + intros [[post H] | (pre & post & H)].
      * exists "", post. now rewrite append_empty.
      * exists (String a pre), post. now rewrite append_String, H.
    + intros (pre & post & H). destruct pre as [| b pre].
      * left. rewrite append_empty in H. eauto.
      * right. rewrite append_String in H. injection H as -> ->. eauto.
Qed.

(** X9.  The allow-list is a substring test: a URL counts as a CDN resource
    exactly when one of the five listed hosts occurs somewhere in its host
    name, so also when the host name only contains a listed host. *)
Theorem isCDNResource_substring (u : URL) :
  isCDNResource u = true ↔
  ∃ h pre post, h ∈ cdnHosts ∧ hostname u = pre ++ h ++ post.
Proof.
  unfold isCDNResource. rewrite existsb_exists. split.
  - intros (h & Hin & Hinc). apply includes_iff in Hinc as (pre & post & H).
    exists h, pre, post. split; [now apply list_elem_of_In | exact H].
  - intros (h & pre & post & Hin & H). exists h.
    split; [now apply list_elem_of_In |]. apply includes_iff. eauto.
Qed.

Lemma isCDNResource_substring_witness :
  isCDNResource Scenario.lookalike = true.
Proof.
  apply (isCDNResource_substring Scenario.lookalike).
  exists "unpkg.com", "", ".attacker.example".
  split; [do 2 right; left | reflexivity].
Defined.

(** ** Install, entry by entry *)

Section PutFacts.

Implicit Types (cs : CacheStorage) (name n key k : string) (v : Response).

Lemma cache_match_put_other name key n k v cs :
  (name, key) ≠ (n, k) →
  cache_match name key (cache_put n k v cs) = cache_match name key cs.
Proof.
  intros Hne. unfold cache_match. destruct (decide (n = name)) as [-> | Hn].
  - rewrite caches_find_put. destruct (caches_find name cs); simpl; [| reflexivity].
    apply lookup_insert_ne. congruence.
  - now rewrite caches_find_put_ne.
Qed.

Lemma cache_match_put_same n k v cs :
  is_Some (caches_find n cs) → cache_match n k (cache_put n k v cs) = Some v.
Proof.
  intros [c Hc]. unfold cache_match. rewrite caches_find_put, Hc. simpl.
  apply lookup_insert_eq.
Qed.

Lemma cache_put_keeps_entries name key n k v cs :
  is_Some (cache_match name key cs) →
  is_Some (cache_match name key (cache_put n k v cs)).
Proof.
  intros H. destruct (decide ((name, key) = (n, k))) as [[= -> ->] | Hne].
  - rewrite cache_match_put_same; [eauto |].
    unfold cache_match in H. destruct (caches_find n cs); [eauto | now destruct H].
  - now rewrite cache_match_put_other.
Qed.

Lemma caches_find_member name cs c : caches_find name cs = Some c → (name, c) ∈ cs.
Proof.
  induction cs as [| [m d] cs IH]; simpl; [discriminate |].
  destruct (String.eqb m name) eqn:E.
  - apply eqb_true in E. intros [= ->]. subst m. left.
  - intros H. right. now apply IH.
Qed.

Lemma cache_put_member name c n k v cs :
  (name, c) ∈ cache_put n k v cs →
  (name, c) ∈ cs ∨ ∃ d, (name, d) ∈ cs ∧ name = n ∧ c = <[k := v]> d.
Proof.
  induction cs as [| [m d] cs IH]; simpl; [intros H; inversion H |].
  destruct (String.eqb m n) eqn:E.
  - apply eqb_true in E. subst m.
    intros [[= -> ->] | Hin]%elem_of_cons.
    + right. exists d. split; [left | auto].
    + left. now right.
  - intros [[= -> ->] | Hin]%elem_of_cons; [left; left |].
    destruct (IH Hin) as [H | (d' & H & Hn & Hc)].
    + left. now right.
    + right. exists d'. split; [now right | auto].
Qed.

Lemma holders_agree_open key v n cs :
  holders_agree key v cs → holders_agree key v (caches_open n cs).
Proof.
  intros H name c Hin. unfold caches_open in Hin.
  destruct (caches_find n cs); [now apply (H name c) |].
  apply elem_of_app in Hin as [Hin | Hin]; [now apply (H name c) |].
  apply list_elem_of_singleton in Hin. injection Hin as -> ->. left. apply lookup_empty.
Qed.

Lemma holders_agree_put key v n k v' cs :
  (k = key → v' = v) → holders_agree key v cs → holders_agree key v (cache_put n k v' cs).
Proof.
  intros Hsame H name c Hin.
  destruct (cache_put_member _ _ _ _ _ _ Hin) as [Hold | (d & Hd & _ & ->)];
    [now apply (H name c) |].
  destruct (decide (k = key)) as [-> | Hne].
  - right. rewrite lookup_insert_eq. f_equal. now apply Hsame.
  - rewrite lookup_insert_ne by exact Hne. now apply (H name d).
Qed.

(** Where the holders of a key agree on [v] and one partition holds it,
    [caches.match] answers [v]. *)
Lemma holders_agree_match key v name cs :
  holders_agree key v cs → cache_match name key cs = Some v →
  caches_match key cs = Some v.
Proof.
  intros Hagree Hheld. destruct (caches_match key cs) as [served |] eqn:E.
  - destruct (caches_match_held _ _ _ E) as (holder & _ & pre & c & post & -> & _ & Hc).
    destruct (Hagree holder c) as [H | H]; [apply elem_of_app; right; left | |];
      congruence.
  - exfalso. rewrite caches_match_None in E. unfold cache_match in Hheld.
    destruct (caches_find name cs) as [c |] eqn:Hc; [| discriminate].
    simpl in Hheld. rewrite (E name c (caches_find_member _ _ _ Hc)) in Hheld.
    discriminate Hheld.
Qed.

Lemma holders_agree_none key v cs : caches_match key cs = None → holders_agree key v cs.
Proof. intros H name c Hin. left. rewrite caches_match_None in H. now apply (H name c). Qed.

End PutFacts.

Section InstallEntries.

Variable self_origin : string.
Variable network : string → option Response.

Local Abbreviation fetch_ok :=
  (λ u : string, response ← network (absolute self_origin u);
                 if ok response && negb (partial_content response)
                 then Some (absolute self_origin u, response) else None).

Local Abbreviation put_entry name :=
  (λ (s : CacheStorage) (e : string * Response), cache_put name (fst e) (snd e) s).

Local Abbreviation cdn := (cache_cdn_resource self_origin network).

(** The entries [addAll] stores are the [ok] answers of the network that are
    not partial, one for every URL. *)
Lemma addAll_entries (urls : list string) (entries : list (string * Response)) :
  mapM fetch_ok urls = Some entries →
  (∀ e, e ∈ entries → network (fst e) = Some (snd e) ∧ ok (snd e) = true) ∧
  (∀ u, u ∈ urls → ∃ response, (absolute self_origin u, response) ∈ entries).
Proof.
  rewrite mapM_Some. induction 1 as [| u e urls entries Hu _ [IH1 IH2]].
  - split; intros ? H; inversion H.
  - assert (He : network (fst e) = Some (snd e) ∧ ok (snd e) = true ∧
                 fst e = absolute self_origin u).
    { destruct (network (absolute self_origin u)) as [response |] eqn:Hn;
        simpl in Hu; [| discriminate].
      destruct (ok response) eqn:Hok; [| discriminate].
      destruct (partial_content response); [discriminate |].
      injection Hu as <-. simpl. auto. }
    destruct He as (Hn & Hok & Hk). split.
    + intros e' [-> | Hin]%elem_of_cons; [auto | now apply IH1].
    + intros u' [-> | Hin]%elem_of_cons.
      * exists (snd e). rewrite <- Hk. destruct e. left.
      * destruct (IH2 u' Hin) as [response H]. exists response. now right.
Qed.

Lemma foldl_put_hit (name : string) (entries : list (string * Response))
    (cs : CacheStorage) (k : string) (v : Response) :
  (∀ e, e ∈ entries → fst e = k → snd e = v) →
  (∃ e, e ∈ entries ∧ fst e = k) ∨ cache_match name k cs = Some v →
  is_Some (caches_find name cs) →
  cache_match name k (foldl (put_entry name) cs entries) = Some v.
Proof.
  revert cs. induction entries as [| e entries IH]; intros cs Hsame Hheld Hfind; simpl.
  - destruct Hheld as [(e & He & _) | H]; [inversion He | exact H].
  - apply IH.
    + intros e' He'. apply Hsame. now right.
    + destruct (decide (fst e = k)) as [Hk | Hk].
      * right. rewrite <- Hk at 1. rewrite (Hsame e ltac:(left) Hk) at 1.
        rewrite <- (Hsame e ltac:(left) Hk). now apply cache_match_put_same.
      * destruct Hheld as [(e' & [-> | He']%elem_of_cons & Hk') | H].
        -- contradiction.
        -- left. eauto.
        -- right. rewrite cache_match_put_other by congruence. exact H.
    + destruct Hfind as [c Hc]. rewrite caches_find_put, Hc. simpl. eauto.
Qed.

Lemma foldl_put_agree (name : string) (entries : list (string * Response))
    (cs : CacheStorage) (k : string) (v : Response) :
  (∀ e, e ∈ entries → fst e = k → snd e = v) →
  holders_agree k v cs → holders_agree k v (foldl (put_entry name) cs entries).
Proof.
  revert cs. induction entries as [| e entries IH]; intros cs Hsame Hagree; simpl;
    [exact Hagree |].
  apply IH; [intros e' He'; apply Hsame; now right |].
  apply holders_agree_put; [apply Hsame; left | exact Hagree].
Qed.

Lemma foldl_put_keeps (n : string) (entries : list (string * Response))
    (cs : CacheStorage) (name key : string) :
  is_Some (cache_match name key cs) →
  is_Some (cache_match name key (foldl (put_entry n) cs entries)).
Proof.
  revert cs. induction entries as [| e entries IH]; intros cs H; simpl; [exact H |].
  apply IH, cache_put_keeps_entries, H.
Qed.

Lemma foldl_put_elsewhere (n : string) (entries : list (string * Response))
    (cs : CacheStorage) (name : string) :
  n ≠ name → caches_find name (foldl (put_entry n) cs entries) = caches_find name cs.
Proof.
  intros Hne. revert cs. induction entries as [| e entries IH]; intros cs; simpl;
    [reflexivity |].
  rewrite IH. now apply caches_find_put_ne.
Qed.

Lemma cdn_step (cs : CacheStorage) (u : string) :
  cache_cdn_resource self_origin network cs u = cs ∨
  ∃ response, network (absolute self_origin u) = Some response ∧
              (ok response = true ∧ partial_content response = false) ∧
              cache_cdn_resource self_origin network cs u
              = cache_put DYNAMIC_CACHE_NAME (absolute self_origin u) response cs.
Proof.
  unfold cache_cdn_resource.
  destruct (network (absolute self_origin u)) as [response |]; [| now left].
  destruct (ok response) eqn:E; [| now left].
  destruct (partial_content response) eqn:E'; [now left | right; eauto].
Qed.

Lemma cdn_fold_hit (urls : list string) (cs : CacheStorage) (k : string) (v : Response) :
  network k = Some v → ok v = true → partial_content v = false →
  (∃ u, u ∈ urls ∧ absolute self_origin u = k) ∨
  cache_match DYNAMIC_CACHE_NAME k cs = Some v →
  is_Some (caches_find DYNAMIC_CACHE_NAME cs) →
  cache_match DYNAMIC_CACHE_NAME k (foldl cdn cs urls) = Some v.
Proof.
  intros Hn Hok Hfull. revert cs.
  induction urls as [| u urls IH]; intros cs Hheld Hfind; simpl.
  - destruct Hheld as [(u & Hu & _) | H]; [inversion Hu | exact H].
  - apply IH.
    + destruct (decide (absolute self_origin u = k)) as [Hk | Hk].
      * right. unfold cache_cdn_resource. rewrite Hk, Hn, Hok, Hfull.
        now apply cache_match_put_same.
      * destruct Hheld as [(u' & [-> | Hu']%elem_of_cons & Hk') | H].
        -- contradiction.
        -- left. eauto.
        -- right. destruct (cdn_step cs u) as [-> | (response & _ & _ & ->)];
             [exact H |].
           rewrite cache_match_put_other by congruence. exact H.
    + destruct (cdn_step cs u) as [-> | (response & _ & _ & ->)]; [exact Hfind |].
      destruct Hfind as [c Hc]. rewrite caches_find_put, Hc. simpl. eauto.
Qed.

Lemma cdn_fold_agree (urls : list string) (cs : CacheStorage) (k : string) (v : Response) :
  network k = Some v →
  holders_agree k v cs → holders_agree k v (foldl cdn cs urls).
Proof.
  intros Hn. revert cs. induction urls as [| u urls IH]; intros cs Hagree; simpl;
    [exact Hagree |].
  apply IH. destruct (cdn_step cs u) as [-> | (response & Hr & _ & ->)]; [exact Hagree |].
  apply holders_agree_put; [| exact Hagree]. intros Hk. congruence.
Qed.

Lemma cdn_fold_keeps (urls : list string) (cs : CacheStorage) (name key : string) :
  is_Some (cache_match name key cs) → is_Some (cache_match name key (foldl cdn cs urls)).
Proof.
  revert cs. induction urls as [| u urls IH]; intros cs H; simpl; [exact H |].
  apply IH. destruct (cdn_step cs u) as [-> | (response & _ & _ & ->)]; [exact H |].
  now apply cache_put_keeps_entries.
Qed.

(** A key for which the network gives no [ok] response, or a partial one,
    is left alone. *)
Lemma cdn_fold_miss (urls : list string) (cs : CacheStorage) (name k : string) :
  (∀ v, network k = Some v → ok v = false ∨ partial_content v = true) →
  cache_match name k (foldl cdn cs urls) = cache_match name k cs.
Proof.
  intros Hbad. revert cs. induction urls as [| u urls IH]; intros cs; simpl;
    [reflexivity |].
  rewrite IH. destruct (cdn_step cs u) as [-> | (response & Hr & [Hok Hfull] & ->)];
    [reflexivity |].
  apply cache_match_put_other. intros [= _ Hk]. rewrite <- Hk in Hr.
  destruct (Hbad response Hr); congruence.
Qed.

(** The storage of an install run, and when the run is fulfilled. *)
Lemma install_unfold (cs : CacheStorage) :
  let opened := caches_open DYNAMIC_CACHE_NAME (caches_open STATIC_CACHE_NAME cs) in
  (installed_store (install self_origin network cs) = foldl cdn opened (slice_from 3 STATIC_FILES)
   ∧ installation (install self_origin network cs) ≠ Fulfilled ()) ∨
  (∃ entries,
     mapM fetch_ok ["/"; "/index.html"; "/manifest.json"] = Some entries ∧
     installation (install self_origin network cs) = Fulfilled () ∧
     installed_store (install self_origin network cs)
     = foldl cdn (foldl (put_entry STATIC_CACHE_NAME) opened entries)
         (slice_from 3 STATIC_FILES)).
Proof.
  intros opened. unfold install, cache_addAll.
  change (slice 0 3 STATIC_FILES) with ["/"; "/index.html"; "/manifest.json"].
  fold opened.
  destruct (mapM fetch_ok ["/"; "/index.html"; "/manifest.json"]) as [entries |];
    cbn [fst snd installation installed_store].
  - right. exists entries. auto.
  - left. split; [reflexivity | discriminate].
Qed.

Lemma opened_has_both (cs : CacheStorage) :
  is_Some (caches_find STATIC_CACHE_NAME
             (caches_open DYNAMIC_CACHE_NAME (caches_open STATIC_CACHE_NAME cs))) ∧
  is_Some (caches_find DYNAMIC_CACHE_NAME
             (caches_open DYNAMIC_CACHE_NAME (caches_open STATIC_CACHE_NAME cs))).
Proof.
  split.
  - rewrite caches_find_open_ne by discriminate. rewrite caches_find_open. eauto.
  - rewrite caches_find_open. eauto.
Qed.

End InstallEntries.

Section InstallOutcome.

Variable self_origin : string.
Variable network : string → option Response.

Local Abbreviation run cs := (install self_origin network cs).

(** After a fulfilled install the static partition holds, for each local
    asset, the response the network gave for it. *)
Lemma install_static_entry (cs : CacheStorage) (u : string) :
  installation (run cs) = Fulfilled () →
  u ∈ ["/"; "/index.html"; "/manifest.json"] →
  ∃ response, network (absolute self_origin u) = Some response ∧ ok response = true ∧
    cache_match STATIC_CACHE_NAME (absolute self_origin u) (installed_store (run cs))
    = Some response.
Proof.
  intros Hdone Hu.
  destruct (install_unfold self_origin network cs)
    as [[_ Hno] | (entries & Hm & _ & ->)]; [contradiction |].
  destruct (addAll_entries self_origin network _ _ Hm) as [Hent Hall].
  destruct (Hall u Hu) as [response Hin].
  destruct (Hent _ Hin) as [Hn Hok]. simpl in Hn, Hok.
  exists response. split; [exact Hn |]. split; [exact Hok |].
  unfold cache_match. rewrite cdn_resources_elsewhere by discriminate.
  apply (foldl_put_hit STATIC_CACHE_NAME entries).
  - intros e He Hk. destruct (Hent e He) as [He' _]. rewrite Hk in He'. congruence.
  - left. exists (absolute self_origin u, response). auto.
  - apply opened_has_both.
Qed.

(** If nothing was cached for a local asset before, [caches.match] answers
    with the installed response afterwards. *)
Lemma install_caches_match (cs : CacheStorage) (u : string) :
  installation (run cs) = Fulfilled () →
  u ∈ ["/"; "/index.html"; "/manifest.json"] →
  caches_match (absolute self_origin u) cs = None →
  ∃ response, network (absolute self_origin u) = Some response ∧ ok response = true ∧
    caches_match (absolute self_origin u) (installed_store (run cs)) = Some response.
Proof.
  intros Hdone Hu Hmiss.
  destruct (install_static_entry cs u Hdone Hu) as (response & Hn & Hok & Hheld).
  exists response. split; [exact Hn |]. split; [exact Hok |].
  apply holders_agree_match with STATIC_CACHE_NAME; [| exact Hheld].
  destruct (install_unfold self_origin network cs)
    as [[_ Hno] | (entries & Hm & _ & ->)]; [contradiction |].
  destruct (addAll_entries self_origin network _ _ Hm) as [Hent _].
  apply cdn_fold_agree; [exact Hn |].
  apply foldl_put_agree.
  - intros e He Hk. destruct (Hent e He) as [He' _]. rewrite Hk in He'. congruence.
  - now apply holders_agree_open, holders_agree_open, holders_agree_none.
Qed.

End InstallOutcome.

(** X10.  What install caches.  After an install run that is fulfilled the
    static partition holds, under the URL of each of the three local
    assets, the response the network gave for it; after any install run the
    dynamic partition holds, under the URL of each external resource, the
    response of the network if that was [ok] and not partial, and what it
    held before if the fetch failed or the response was not [ok] or was
    partial. *)
Theorem install_populates
    (self_origin : string) (network : string → option Response) (cs : CacheStorage) :
  let i := install self_origin network cs in
  (installation i = Fulfilled () →
   ∀ u, u ∈ ["/"; "/index.html"; "/manifest.json"] →
     ∃ response, network (absolute self_origin u) = Some response ∧ ok response = true ∧
       cache_match STATIC_CACHE_NAME (absolute self_origin u) (installed_store i)
       = Some response) ∧
  (∀ u response, u ∈ slice_from 3 STATIC_FILES →
     network (absolute self_origin u) = Some response → ok response = true →
     partial_content response = false →
     cache_match DYNAMIC_CACHE_NAME (absolute self_origin u) (installed_store i)
     = Some response) ∧
  (∀ u, u ∈ slice_from 3 STATIC_FILES →
     (∀ v, network (absolute self_origin u) = Some v →
           ok v = false ∨ partial_content v = true) →
     cache_match DYNAMIC_CACHE_NAME (absolute self_origin u) (installed_store i)
     = cache_match DYNAMIC_CACHE_NAME (absolute self_origin u) cs).
Proof.
  intros i. subst i. split; [| split].
  - intros Hdone u Hu. now apply install_static_entry.
  - intros u response Hu Hn Hok Hfull.
    destruct (install_unfold self_origin network cs)
      as [[-> _] | (entries & _ & _ & ->)];
      (apply cdn_fold_hit; [exact Hn | exact Hok | exact Hfull | left; eauto |]).
    + apply opened_has_both.
    + rewrite foldl_put_elsewhere by discriminate. apply opened_has_both.
  - intros u Hu Hbad.
    destruct (install_unfold self_origin network cs)
      as [[-> _] | (entries & _ & _ & ->)];
      rewrite (cdn_fold_miss self_origin network _ _ _ _ Hbad).
    + now rewrite !cache_match_open_any.
    + unfold cache_match at 1. rewrite foldl_put_elsewhere by discriminate.
      fold (cache_match DYNAMIC_CACHE_NAME (absolute self_origin u)
              (caches_open DYNAMIC_CACHE_NAME (caches_open STATIC_CACHE_NAME cs))).
      now rewrite !cache_match_open_any.
Qed.

Lemma install_populates_witness :
  cache_match STATIC_CACHE_NAME "https://app.example/manifest.json"
    (installed_store (install Sample.app Sample.cdn_down []))
  = Some Sample.fresh.
Proof.
  destruct (install_populates Sample.app Sample.cdn_down []) as (H & _).
  destruct (H eq_refl "/manifest.json") as (response & Hn & _ & Hheld).
  - do 2 right. left.
  - injection Hn as <-. exact Hheld.
Defined.

Lemma append_assoc (a b c : string) : (a ++ b) ++ c = a ++ b ++ c.
Proof. induction a as [| x a IH]; [reflexivity |]. rewrite !append_String. now rewrite IH. Qed.

Lemma append_cancel (a b c : string) : a ++ b = a ++ c → b = c.
Proof.
  induction a as [| x a IH]; [now rewrite !append_empty |].
  rewrite !append_String. intros [= H]. now apply IH.
Qed.

(** A request whose URL is that of a local asset has no fragment: it is
    filed under that URL. *)
Lemma cache_url_of_local_asset (self_origin : string) (r : Request) (u : string) :
  http_scheme r → origin (target r) = self_origin →
  u ∈ ["/"; "/index.html"; "/manifest.json"] →
  url r = absolute self_origin u → cache_url r = absolute self_origin u.
Proof.
  intros Hs Ho Hu Hurl.
  assert (Hself : self_origin = protocol (target r) ++ "//" ++ host (target r)).
  { rewrite <- Ho. unfold origin. destruct Hs as [-> | ->]; reflexivity. }
  assert (Hpath : pathname (target r) = u).
  { assert (Habs : absolute self_origin u = self_origin ++ u).
    { repeat (apply elem_of_cons in Hu as [-> | Hu]; [reflexivity |]). inversion Hu. }
    rewrite Habs, Hself in Hurl. unfold url, href in Hurl.
    rewrite !append_assoc in Hurl.
    now apply append_cancel, append_cancel, append_cancel in Hurl. }
  rewrite <- Hurl. unfold cache_url, url, href. rewrite Hpath.
  repeat (apply elem_of_cons in Hu as [-> | Hu]; [reflexivity |]). inversion Hu.
Qed.

(** X11.  The installed assets are served offline.  After an install run
    that is fulfilled, a same-origin GET request for one of the three local
    assets, for which nothing was cached before the install, is answered by
    the fetch handler with the installed response, at once and without any
    fetch, whatever the network does by then. *)
Theorem installed_assets_are_served_offline
    (self_origin : string) (network later : string → option Response)
    (cs : CacheStorage) (r : Request) (u : string) :
  installation (install self_origin network cs) = Fulfilled () →
  u ∈ ["/"; "/index.html"; "/manifest.json"] →
  method r = "GET" → http_scheme r → origin (target r) = self_origin →
  url r = absolute self_origin u →
  caches_match (cache_url r) cs = None →
  let s := installed_store (install self_origin network cs) in
  ∃ response, network (url r) = Some response ∧
    fetch_handler self_origin later r s
    = {| respondWith := Some (Fulfilled (Some response), Immediately);
         network_calls := []; caches_after := s |}.
Proof.
  intros Hdone Hu Hm Hs Ho Hurl Hmiss s.
  pose proof (cache_url_of_local_asset self_origin r u Hs Ho Hu Hurl) as Hkey.
  rewrite Hkey in Hmiss.
  destruct (install_caches_match self_origin network cs u Hdone Hu Hmiss)
    as (response & Hn & _ & Hc).
  exists response. rewrite Hurl. split; [exact Hn |].
  rewrite (fetch_handler_same_origin _ _ _ _ Hm Hs Ho).
  unfold cacheFirstStrategy, caches_match_request.
  rewrite (request_key_GET r Hm). simpl. rewrite Hkey. subst s. now rewrite Hc.
Qed.

Lemma installed_assets_are_served_offline_witness :
  respondWith (fetch_handler Sample.app Sample.offline Sample.page_request
                 (installed_store (install Sample.app Sample.cdn_down [])))
  = Some (Fulfilled (Some Sample.fresh), Immediately).
Proof.
  destruct (installed_assets_are_served_offline Sample.app Sample.cdn_down Sample.offline
              [] Sample.page_request "/index.html" eq_refl)
    as (response & Hn & ->); try reflexivity.
  - right. left.
  - now right.
  - injection Hn as <-. reflexivity.
Defined.

(** X12.  Offline navigation gets the application shell.  After an install
    run that is fulfilled, a GET request whose destination is [document],
    which no partition holds and whose fetch fails, is answered by
    cache-first with a cached [/index.html] of the worker's origin, never
    with [undefined]; that is the page fetched at install when nothing was
    cached for [/index.html] before. *)
Theorem offline_navigation_gets_the_shell
    (self_origin : string) (network later : string → option Response)
    (cs : CacheStorage) (r : Request) :
  installation (install self_origin network cs) = Fulfilled () →
  method r = "GET" → destination r = "document" → later (url r) = None →
  let s := installed_store (install self_origin network cs) in
  caches_match (cache_url r) s = None →
  ∃ shell, answer (cacheFirstStrategy self_origin later r s) = Fulfilled (Some shell) ∧
           caches_match (self_origin ++ "/index.html") s = Some shell ∧
           (caches_match (self_origin ++ "/index.html") cs = None →
            network (self_origin ++ "/index.html") = Some shell).
Proof.
  intros Hdone Hm Hd Hoff s Hmiss.
  assert (Hans : answer (cacheFirstStrategy self_origin later r s)
                 = Fulfilled (caches_match (self_origin ++ "/index.html") s)).
  { unfold cacheFirstStrategy, caches_match_request.
    change (absolute self_origin "/index.html") with (self_origin ++ "/index.html").
    rewrite (request_key_GET r Hm). cbn [mbind option_bind]. rewrite Hmiss, Hoff, Hd.
    reflexivity. }
  assert (Hin : "/index.html" ∈ ["/"; "/index.html"; "/manifest.json"]) by (right; left).
  destruct (install_static_entry self_origin network cs "/index.html" Hdone Hin)
    as (installed & Hn & _ & Hheld).
  change (absolute self_origin "/index.html") with (self_origin ++ "/index.html") in *.
  destruct (caches_match (self_origin ++ "/index.html") s) as [shell |] eqn:E.
  - exists shell. split; [exact Hans |]. split; [reflexivity |]. intros Hbefore.
    destruct (install_caches_match self_origin network cs "/index.html" Hdone Hin Hbefore)
      as (response & Hn' & _ & Hc).
    change (absolute self_origin "/index.html") with (self_origin ++ "/index.html") in *.
    subst s. congruence.
  - exfalso. rewrite caches_match_None in E. subst s. unfold cache_match in Hheld.
    destruct (caches_find STATIC_CACHE_NAME _) as [c |] eqn:Hc; [| discriminate].
    simpl in Hheld. rewrite (E _ c (caches_find_member _ _ _ Hc)) in Hheld.
    discriminate Hheld.
Qed.

Lemma offline_navigation_gets_the_shell_witness :
  ∃ shell,
    answer (cacheFirstStrategy Sample.app Sample.offline Scenario.report_request
              (installed_store (install Sample.app Sample.cdn_down [])))
    = Fulfilled (Some shell).
Proof.
  destruct (offline_navigation_gets_the_shell Sample.app Sample.cdn_down Sample.offline
              [] Scenario.report_request eq_refl eq_refl eq_refl eq_refl)
    as (shell & H & _); [vm_compute; reflexivity |].
  exists shell. exact H.
Defined.

(** X13.  Install never deletes.  Every partition other than the two
    current ones is after an install run what it was before, and every key
    that was held by a partition still is. *)
Theorem install_keeps_what_was_cached
    (self_origin : string) (network : string → option Response) (cs : CacheStorage) :
  let s := installed_store (install self_origin network cs) in
  (∀ name, name ≠ STATIC_CACHE_NAME → name ≠ DYNAMIC_CACHE_NAME →
     caches_find name s = caches_find name cs) ∧
  (∀ name key, is_Some (cache_match name key cs) → is_Some (cache_match name key s)).
Proof.
  intros s. subst s. split.
  - intros name Hs Hd.
    destruct (install_unfold self_origin network cs)
      as [[-> _] | (entries & _ & _ & ->)];
      rewrite cdn_resources_elsewhere by exact Hd.
    + now rewrite !caches_find_open_ne by congruence.
    + rewrite foldl_put_elsewhere by congruence.
      now rewrite !caches_find_open_ne by congruence.
  - intros name key H.
    destruct (install_unfold self_origin network cs)
      as [[-> _] | (entries & _ & _ & ->)]; apply cdn_fold_keeps.
    + now rewrite !cache_match_open_any.
    + apply foldl_put_keeps. now rewrite !cache_match_open_any.
Qed.

(** ** Activate, again *)

(** X14.  Activation is idempotent and leaves one version.  Among the
    partitions left by an activation every name that begins with
    [finance-] is the current static or the current dynamic name; a second
    activation deletes nothing and leaves the storage as the first left
    it. *)
Theorem activate_twice (cs : CacheStorage) :
  let once := activated_store (activate cs) in
  (∀ name, name ∈ caches_keys once → startsWith name "finance-" = true →
           name = STATIC_CACHE_NAME ∨ name = DYNAMIC_CACHE_NAME) ∧
  deleted (activate once) = [] ∧
  activated_store (activate once) = once.
Proof.
  intros once.
  assert (Hkept : ∀ name, name ∈ caches_keys once → old_cache name = false).
  { intros name Hin. subst once. rewrite activated_store_filter in Hin.
    unfold caches_keys in Hin. apply list_elem_of_In, in_map_iff in Hin
      as ([n c] & <- & Hp). apply filter_In in Hp as [_ Hp]. simpl in *.
    now apply negb_true_iff in Hp. }
  assert (Hnone : deleted (activate once) = []).
  { destruct (deleted (activate once)) as [| name rest] eqn:E; [reflexivity |].
    assert (Hin : name ∈ deleted (activate once)) by (rewrite E; left).
    apply deleted_spec in Hin as [Hin Hold]. rewrite (Hkept name Hin) in Hold.
    discriminate Hold. }
  split; [| split; [exact Hnone |]].
  - intros name Hin Hpre. specialize (Hkept name Hin). unfold old_cache in Hkept.
    rewrite Hpre in Hkept. simpl in Hkept.
    destruct (String.eqb name STATIC_CACHE_NAME) eqn:Es;
      [left; now apply eqb_true |].
    destruct (String.eqb name DYNAMIC_CACHE_NAME) eqn:Ed;
      [right; now apply eqb_true | discriminate Hkept].
  - unfold activate in *. simpl in *. now rewrite Hnone.
Qed.

(** ** Background sync, on failure *)

Lemma process_each_stops (process : Transaction → Promise unit)
    (pre post : list Transaction) (t : Transaction) (e : string) :
  (∀ x, x ∈ pre → process x = Fulfilled ()) → process t = Rejected e →
  process_each process (pre ++ t :: post)%list = ((pre ++ [t])%list, Rejected e).
Proof.
  intros Hpre Ht. induction pre as [| x pre IH]; simpl.
  - now rewrite Ht.
  - rewrite (Hpre x) by left. rewrite IH; [reflexivity |].
    intros y Hy. apply Hpre. now right.
Qed.

(** X15.  A synchronization run stops at the first record whose processing
    fails: the records before it and the failing one have been handed to
    the processor, in order, none of the later ones has, the error is
    caught, and no message is posted to any client. *)
Theorem sync_stops_at_first_failure
    (pre post : list Transaction) (t : Transaction) (e : string)
    (process : Transaction → Promise unit) (clients : list string) :
  (∀ x, x ∈ pre → process x = Fulfilled ()) → process t = Rejected e →
  syncTransactions_with (Fulfilled (pre ++ t :: post)%list) process clients
  = {| processed := (pre ++ [t])%list; sync_error := Some e; posted := [] |}.
Proof.
  intros Hpre Ht. unfold syncTransactions_with.
  replace (0 <? length (pre ++ t :: post)%list)%nat with true
    by (symmetry; apply Nat.ltb_lt; rewrite length_app; simpl; lia).
  now rewrite (process_each_stops process pre post t e Hpre Ht).
Qed.

Lemma sync_stops_at_first_failure_witness :
  syncTransactions_with (Fulfilled Scenario.three_pending) Scenario.fails_on_t2
    ["window-1"]
  = {| processed := [ {| transaction_id := "t1" |}; {| transaction_id := "t2" |} ];
       sync_error := Some "quota exceeded"; posted := [] |}.
Proof.
  apply (sync_stops_at_first_failure
           [ {| transaction_id := "t1" |} ] [ {| transaction_id := "t3" |} ]
           {| transaction_id := "t2" |} "quota exceeded" Scenario.fails_on_t2
           ["window-1"]).
  - intros x Hx. apply list_elem_of_singleton in Hx. subst x. reflexivity.
  - reflexivity.
Defined.

(** ** Messages from the page *)



(** X17.  What each message can do.  Only [SKIP_WAITING] makes the worker
    call [skipWaiting]; only [GET_CACHE_STATUS] is replied to; a message of
    any type other than [CACHE_TRANSACTION] leaves the storage as it was; a
    message of none of the three types does nothing at all. *)
Theorem message_effects
    (resolve : string → option string) (now : string) (event : MessageEvent)
    (st : Storage) :
  NoDup (caches_keys (contents st)) →
  let m := message_handler resolve now event st in
  (skipWaiting_requested m = true ↔ message_type event = "SKIP_WAITING") ∧
  (replies m ≠ [] → message_type event = "GET_CACHE_STATUS") ∧
  (message_type event ≠ "CACHE_TRANSACTION" → message_store m = contents st) ∧
  (message_type event ≠ "SKIP_WAITING" → message_type event ≠ "CACHE_TRANSACTION" →
   message_type event ≠ "GET_CACHE_STATUS" →
   m = {| skipWaiting_requested := false; replies := []; unhandled_rejection := None;
          message_store := contents st |}).
Proof.
  intros Hnd m. subst m. unfold message_handler.
  destruct (String.eqb (message_type event) "SKIP_WAITING") eqn:E1.
  { apply eqb_true in E1. simpl. repeat split; auto; try congruence. }
  apply eqb_false in E1.
  destruct (String.eqb (message_type event) "CACHE_TRANSACTION") eqn:E2.
  { apply eqb_true in E2. simpl. repeat split; auto; try congruence; discriminate. }
  apply eqb_false in E2.
  destruct (String.eqb (message_type event) "GET_CACHE_STATUS") eqn:E3.
  - apply eqb_true in E3. rewrite (getCacheStatus_spec now st Hnd).
    destruct (ports event); simpl; repeat split; auto; try congruence; discriminate.
  - apply eqb_false in E3. simpl. repeat split; auto; try congruence; discriminate.
Qed.

Lemma message_effects_witness :
  message_handler Sample.at_root "2024-01-01T00:00:00.000Z"
    {| message_type := "FOO"; message_data := None; ports := ["port-1"] |}
    (healthy Sample.with_page)
  = {| skipWaiting_requested := false; replies := []; unhandled_rejection := None;
       message_store := Sample.with_page |}.
Proof.
  destruct (message_effects Sample.at_root "2024-01-01T00:00:00.000Z"
              {| message_type := "FOO"; message_data := None; ports := ["port-1"] |}
              (healthy Sample.with_page)) as (_ & _ & _ & H).
  - apply (bool_decide_unpack _). vm_compute. exact I.
  - apply H; discriminate.
Defined.

(** ** Periodic sync *)

(** X18.  The exchange-rate update.  When the endpoint answers with an [ok]
    response whose body is JSON, the dynamic partition afterwards holds,
    under the URL as which the platform files the key [exchange-rates], a
    response whose body is that JSON serialised again; when the fetch
    fails, the response is not [ok] or its body is not JSON, the storage is
    left as it was; in every case every other entry of every partition is
    as before. *)
Theorem exchange_rates_update
    (resolve : string → option string) (network : string → option Response)
    (reserialise : string → option string) (cs : CacheStorage) :
  let s := updateExchangeRates resolve network reserialise cs in
  (∀ response text key,
     network EXCHANGE_RATES_URL = Some response → ok response = true →
     reserialise (body response) = Some text → resolve "exchange-rates" = Some key →
     cache_match DYNAMIC_CACHE_NAME key s
     = Some {| status := 200; statusText := ""; body := text |}) ∧
  (network EXCHANGE_RATES_URL = None ∨
   (∃ response, network EXCHANGE_RATES_URL = Some response ∧
                (ok response = false ∨ reserialise (body response) = None)) →
   s = cs) ∧
  (∀ name k, resolve "exchange-rates" ≠ Some k ∨ name ≠ DYNAMIC_CACHE_NAME →
     cache_match name k s = cache_match name k cs).
Proof.
  intros s. subst s. unfold updateExchangeRates.
  split; [| split].
  - intros response text key Hn Hok Hj Hkey. rewrite Hn, Hok, Hj, Hkey.
    apply cache_match_put_open.
  - intros [Hn | (response & Hn & [Hok | Hj])]; rewrite Hn; [reflexivity | |].
    + now rewrite Hok.
    + rewrite Hj. now destruct (ok response).
  - intros name k Hne. destruct (network EXCHANGE_RATES_URL) as [response |];
      [| reflexivity].
    destruct (ok response); [| reflexivity].
    destruct (reserialise (body response)); [| reflexivity].
    destruct (resolve "exchange-rates") as [key |]; [| apply cache_match_open_any].
    rewrite cache_match_put_other; [apply cache_match_open_any |].
    intros [= -> ->]. destruct Hne as [Hne | Hne]; congruence.
Qed.

Lemma exchange_rates_update_witness :
  cache_match DYNAMIC_CACHE_NAME "https://app.example/local-finance/exchange-rates"
    (periodicsync_handler Scenario.below_root Scenario.rates_endpoint Scenario.compact
       "update-exchange-rates" Sample.installed)
  = Some {| status := 200; statusText := ""; body := "[1,2]" |}.
Proof.
  destruct (exchange_rates_update Scenario.below_root Scenario.rates_endpoint
              Scenario.compact Sample.installed) as (H & _).
  apply (H Scenario.rates "[1,2]"); reflexivity.
Defined.
